(** * The aggregator of [manager/aggregator.go]

    A shallow embedding of the aggregation engine: the per-fingerprint
    aggregation instance with its three methods ([Ingest], [Tidy],
    [SendNotification]), the aggregator's two request handlers
    ([aggregate], [replaceRules]) and the body of the [Dispatch] loop.

    Conventions of the embedding.
    - Go pointers to [AggregationInstance] are locations ([loc]) in a
      store of instances ([heap]); the table [Aggregates] maps a
      fingerprint to a location, as the Go map holds pointers.
      Dereferencing a location that holds no object stops the program
      ([Panic]), like a nil dereference does.
    - Pointers to [AggregationRule] are addresses ([RulePtr]) into a store
      of rule objects that no function of the file writes.
    - The code runs in a state-and-failure monad [M] over [World]: the
      aggregator object, the instance store, the state of the summary
      receiver, the clock readings and four output traces (the
      operational log, the calls made to the receiver, the appends made by
      [Ingest], the evaluations of [Handles]).
    - Channels: a request's private [Response] channel is rendered as the
      value the handler returns; a receive from an intake channel is a
      [recv] value ([Closed] yields the nil request and [open = false]). *)

From Stdlib Require Import ZArith Lia.
From stdpp Require Import gmap list strings.

Local Open Scope Z_scope.

(** ** Types declared outside [aggregator.go] *)

(** [time.Time], as an instant on a line; [t.Before(u)] is [t < u]. *)
Abbreviation Time := Z (only parsing).
Definition Before (t u : Time) : bool := t <? u.
Definition zeroTime : Time := 0.

Abbreviation uint64 := Z (only parsing).

(** The declarations that [aggregator.go] uses from its package: the event
    type with its creation time and fingerprint, the filter type with its
    matching predicate, and the error a receiver returns with its
    classification. An inhabitant of [Event] stands for a valid [*Event]. *)
Class Declarations := {
  Event : Type;
  CreatedAt : Event → Time;
  Fingerprint : Event → uint64;
  Filters : Type;
  Filters_Handles : Filters → Event → bool;
  SendError : Type;
  Retryable : SendError → bool
}.

(** [*AggregationRule] and [*AggregationInstance]. *)
Abbreviation RulePtr := nat (only parsing).
Abbreviation loc := nat (only parsing).

Inductive aggDispatchState := aggUnsent | aggSent.

Inductive recv (A : Type) :=
| Msg (v : A)
| Closed.
Arguments Msg {A} v.
Arguments Closed {A}.

Section model.
Context `{D : Declarations}.

(** ** Data model *)

Record AggregationRule := {
  Filters_of : Filters;
  RepeatRate : Z
}.

Record AggregationInstance := {
  Rule : RulePtr;
  Events : list Event;
  EndsAt : Time;
  state : aggDispatchState
}.

Definition AggregationRules := list RulePtr.

Record EventSummary := {
  summary_Rule : RulePtr;
  summary_Events : list Event
}.

(** The interface [SummaryReceiver]: [Receive] may change the receiver and
    returns nil ([None]) or an error. *)
Class SummaryReceiver (S : Type) := {
  Receive : S → EventSummary → S * option SendError
}.

(** The rule objects in memory. *)
Class RuleStore := {
  rule_at : RulePtr → AggregationRule
}.

Record Aggregator := {
  Rules : AggregationRules;
  Aggregates : gmap uint64 loc
}.

Record aggregateEventsRequest := {
  req_Events : list Event
}.

Record aggregateEventsResponse := {
  Err : option string
}.

Record aggregatorResetRulesRequest := {
  req_Rules : AggregationRules
}.

Inductive aggregatorResetRulesResponse := ResetRulesResponse.

(** The lines the code prints with [log.Println]. *)
Inductive LogLine :=
| LogTidying
| LogUnretryable (err : SendError)
| LogAggregating (req : aggregateEventsRequest)
| LogChecking (r : RulePtr) (handles : bool)
| LogReplacing (n : nat).

Context {S : Type}.

Record World := {
  agg : Aggregator;
  heap : list AggregationInstance;
  sink : S;
  clock : nat → Time;
  reads : nat;
  oplog : list LogLine;
  received : list (loc * EventSummary);
  ingested : list (loc * Event);
  evaluated : list (RulePtr * Event);
  closed_signal : nat
}.

(** ** The monad *)

Inductive result (A : Type) :=
| Ok (a : A) (w : World)
| Panic.

Definition M (A : Type) := World → result A.

Definition ret {A} (a : A) : M A := λ w, Ok A a w.

Definition bind {A B} (m : M A) (k : A → M B) : M B :=
  λ w, match m w with
       | Ok _ a w' => k a w'
       | Panic _ => Panic B
       end.

(** Updates of one component of the world. *)
Definition with_agg (f : Aggregator → Aggregator) (w : World) : World :=
  {| agg := f (agg w); heap := heap w; sink := sink w; clock := clock w;
     reads := reads w; oplog := oplog w; received := received w;
     ingested := ingested w; evaluated := evaluated w;
     closed_signal := closed_signal w |}.

Definition with_heap (f : list AggregationInstance → list AggregationInstance)
    (w : World) : World :=
  {| agg := agg w; heap := f (heap w); sink := sink w; clock := clock w;
     reads := reads w; oplog := oplog w; received := received w;
     ingested := ingested w; evaluated := evaluated w;
     closed_signal := closed_signal w |}.

Definition with_oplog (f : list LogLine → list LogLine) (w : World) : World :=
  {| agg := agg w; heap := heap w; sink := sink w; clock := clock w;
     reads := reads w; oplog := f (oplog w); received := received w;
     ingested := ingested w; evaluated := evaluated w;
     closed_signal := closed_signal w |}.

Definition with_reads (f : nat → nat) (w : World) : World :=
  {| agg := agg w; heap := heap w; sink := sink w; clock := clock w;
     reads := f (reads w); oplog := oplog w; received := received w;
     ingested := ingested w; evaluated := evaluated w;
     closed_signal := closed_signal w |}.

Definition with_evaluated (f : list (RulePtr * Event) → list (RulePtr * Event))
    (w : World) : World :=
  {| agg := agg w; heap := heap w; sink := sink w; clock := clock w;
     reads := reads w; oplog := oplog w; received := received w;
     ingested := ingested w; evaluated := f (evaluated w);
     closed_signal := closed_signal w |}.

Definition with_call (s : S) (c : loc * EventSummary) (w : World) : World :=
  {| agg := agg w; heap := heap w; sink := s; clock := clock w;
     reads := reads w; oplog := oplog w; received := received w ++ [c];
     ingested := ingested w; evaluated := evaluated w;
     closed_signal := closed_signal w |}.

Definition with_ingested (f : list (loc * Event) → list (loc * Event))
    (w : World) : World :=
  {| agg := agg w; heap := heap w; sink := sink w; clock := clock w;
     reads := reads w; oplog := oplog w; received := received w;
     ingested := f (ingested w); evaluated := evaluated w;
     closed_signal := closed_signal w |}.

Definition with_closed_signal (f : nat → nat) (w : World) : World :=
  {| agg := agg w; heap := heap w; sink := sink w; clock := clock w;
     reads := reads w; oplog := oplog w; received := received w;
     ingested := ingested w; evaluated := evaluated w;
     closed_signal := f (closed_signal w) |}.

End model.

Arguments Ok {D S A} a w.
Arguments Panic {D S A}.

Notation "'do' x <- m ; k" := (bind m (λ x, k))
  (at level 10, x name, m at level 100, k at level 200,
   format "'[v' 'do'  x  <-  m ; '/' k ']'").
Notation "'run' m ; k" := (bind m (λ _, k))
  (at level 10, m at level 100, k at level 200,
   format "'[v' 'run'  m ; '/' k ']'").

Section code.
Context `{D : Declarations} {S : Type}.
Context `{SR : !SummaryReceiver S} `{RS : !RuleStore}.

Local Abbreviation M := (@M D S).

(** ** Primitive effects *)

(** A read through an [*AggregationInstance]. *)
Definition load (r : loc) : M AggregationInstance :=
  λ w, match heap w !! r with
       | Some a => Ok a w
       | None => Panic
       end.

(** An assignment to a field through an [*AggregationInstance]. *)
Definition assign (r : loc) (f : AggregationInstance → AggregationInstance)
    : M unit :=
  λ w, match heap w !! r with
       | Some a => Ok tt (with_heap (λ h, <[r := f a]> h) w)
       | None => Panic
       end.

(** [&AggregationInstance{...}]: a new object at a location not yet used. *)
Definition alloc (a : AggregationInstance) : M loc :=
  λ w, Ok (length (heap w)) (with_heap (λ h, h ++ [a]) w).

(** A dereference of a request pointer; the pointer is nil when the value
    came from a closed channel. *)
Definition deref {A} (p : option A) : M A :=
  λ w, match p with
       | Some v => Ok v w
       | None => Panic
       end.

Definition println (l : LogLine) : M unit :=
  λ w, Ok tt (with_oplog (λ o, o ++ [l]) w).

(** [time.Now()]: the next reading of the clock. *)
Definition time_Now : M Time :=
  λ w, Ok (clock w (reads w)) (with_reads Datatypes.S w).

Definition get_agg : M Aggregator := λ w, Ok (agg w) w.

Definition set_Rules (rs : AggregationRules) : M unit :=
  λ w, Ok tt (with_agg (λ a, {| Rules := rs; Aggregates := Aggregates a |}) w).

Definition set_Aggregates (m : gmap uint64 loc) : M unit :=
  λ w, Ok tt (with_agg (λ a, {| Rules := Rules a; Aggregates := m |}) w).

(** [s.Receive(summary)], called on behalf of the instance at [r]. *)
Definition sink_Receive (r : loc) (sm : EventSummary) : M (option SendError) :=
  λ w, let '(s', err) := Receive (sink w) sm in
       Ok err (with_call s' (r, sm) w).

(** The trace of appends: event [e] joined the sequence of the instance at [r]. *)
Definition note_ingested (r : loc) (e : Event) : M unit :=
  λ w, Ok tt (with_ingested (λ t, t ++ [(r, e)]) w).

(** Field updates of an instance. *)
Definition set_Events (evs : list Event) (a : AggregationInstance) :=
  {| Rule := Rule a; Events := evs; EndsAt := EndsAt a; state := state a |}.

Definition set_state (st : aggDispatchState) (a : AggregationInstance) :=
  {| Rule := Rule a; Events := Events a; EndsAt := EndsAt a; state := st |}.

(** ** [AggregationRule] and [AggregationInstance] *)

(** [func (r *AggregationRule) Handles(e *Event) bool] *)
Definition Handles (r : RulePtr) (e : Event) : M bool :=
  λ w, Ok (Filters_Handles (Filters_of (rule_at r)) e)
          (with_evaluated (λ t, t ++ [(r, e)]) w).

(** [func (r *AggregationInstance) Ingest(e *Event)] *)
Definition Ingest (r : loc) (e : Event) : M unit :=
  do a <- load r;
  run assign r (set_Events (Events a ++ [e]));
  note_ingested r e.

(** The loop of [Tidy]: the events created after [t], in order. *)
Definition tidy_loop (t : Time) (evs : list Event) : list Event :=
  foldl (λ events e, if Before t (CreatedAt e) then events ++ [e] else events)
        [] evs.

(** [func (r *AggregationInstance) Tidy()] *)
Definition Tidy (r : loc) : M unit :=
  run println LogTidying;
  do a <- load r;
  if (length (Events a) =? 0)%nat then ret tt
  else
    do t <- time_Now;
    let events := tidy_loop t (Events a) in
    run (if (length events =? 0)%nat
         then assign r (set_state aggSent)
         else ret tt);
    assign r (set_Events events).

(** [func (r *AggregationInstance) SendNotification(s SummaryReceiver)] *)
Definition SendNotification (r : loc) : M unit :=
  do a <- load r;
  match state a with
  | aggSent => ret tt
  | aggUnsent =>
      do err <- sink_Receive r {| summary_Rule := Rule a;
                                  summary_Events := Events a |};
      match err with
      | Some err =>
          if Retryable err then ret tt
          else
            run println (LogUnretryable err);
            assign r (set_state aggSent)
      | None => assign r (set_state aggSent)
      end
  end.

(** ** [Aggregator] *)

(** [func NewAggregator() *Aggregator]: no rules, an empty table. *)
Definition NewAggregator : Aggregator :=
  {| Rules := []; Aggregates := ∅ |}.

(** What [aggregate] does with the element once rule [r] handles it: the
    body of [if r.Handles(element) { ... }] up to the [break]. *)
Definition claim (r : RulePtr) (element : Event) : M unit :=
  let fp := Fingerprint element in
  do a <- get_agg;
  do aggregation <-
    match Aggregates a !! fp with
    | Some aggregation => ret aggregation
    | None =>
        do aggregation <- alloc {| Rule := r; Events := [];
                                   EndsAt := zeroTime; state := aggUnsent |};
        do a <- get_agg;
        run set_Aggregates (<[fp := aggregation]> (Aggregates a));
        ret aggregation
    end;
  run Ingest aggregation element;
  SendNotification aggregation.

(** [for _, r := range a.Rules { ... }] for one element. *)
Fixpoint range_Rules (element : Event) (rules : AggregationRules) : M unit :=
  match rules with
  | [] => ret tt
  | r :: rules' =>
      do h <- Handles r element;
      run println (LogChecking r h);
      do h <- Handles r element;
      if h then claim r element (* break *)
      else range_Rules element rules'
  end.

(** [for _, element := range req.Events { ... }] *)
Fixpoint range_Events (events : list Event) : M unit :=
  match events with
  | [] => ret tt
  | element :: events' =>
      do a <- get_agg;
      run range_Rules element (Rules a);
      range_Events events'
  end.

(** [func (a *Aggregator) aggregate(req *aggregateEventsRequest, s SummaryReceiver)];
    the result is the response sent on [req.Response]. *)
Definition aggregate (req : option aggregateEventsRequest)
    : M aggregateEventsResponse :=
  do a <- get_agg;
  if (length (Rules a) =? 0)%nat then
    do _ <- deref req;
    ret {| Err := Some "No aggregation rules"%string |}
  else
    do rq <- deref req;
    run println (LogAggregating rq);
    run range_Events (req_Events rq);
    ret {| Err := None |}.

(** [func (a *Aggregator) replaceRules(r *aggregatorResetRulesRequest)] *)
Definition replaceRules (r : option aggregatorResetRulesRequest)
    : M aggregatorResetRulesResponse :=
  do rq <- deref r;
  run println (LogReplacing (length (req_Rules rq)));
  run set_Rules (req_Rules rq);
  ret ResetRulesResponse.

(** [func (a *Aggregator) Receive(e Events) error], as the dispatch loop
    serves it: the request is built, handled, and the error of the response
    is returned. *)
Definition Aggregator_Receive (e : list Event) : M (option string) :=
  do result <- aggregate (Some {| req_Events := e |});
  ret (Err result).


(** ** The dispatch loop *)

(** [v, open := <-ch] *)
Definition recv_value {A} (m : recv A) : option A :=
  match m with Msg v => Some v | Closed => None end.

Definition recv_open {A} (m : recv A) : bool :=
  match m with Msg _ => true | Closed => false end.

(** The case that a [select] of the loop takes. For the ticker case the
    order in which [range a.Aggregates] visits the table is part of the
    choice. *)
Inductive selected :=
| CaseAggRequests (m : recv aggregateEventsRequest)
| CaseRulesRequests (m : recv aggregatorResetRulesRequest)
| CaseTick (order : list (uint64 * loc)).

(** [for _, a := range a.Aggregates { a.Tidy() }] *)
Fixpoint range_Aggregates (order : list (uint64 * loc)) : M unit :=
  match order with
  | [] => ret tt
  | (_, a) :: order' =>
      run Tidy a;
      range_Aggregates order'
  end.

(** One turn of the loop body; the result is the new value of [closed]. *)
Definition select_case (sel : selected) (closed : nat) : M nat :=
  match sel with
  | CaseAggRequests m =>
      do _ <- aggregate (recv_value m);
      if negb (recv_open m) then ret (closed + 1)%nat else ret closed
  | CaseRulesRequests m =>
      do _ <- replaceRules (recv_value m);
      if negb (recv_open m) then ret (closed + 1)%nat else ret closed
  | CaseTick order =>
      run range_Aggregates order;
      ret closed
  end.

(** A [select] choice is one the runtime can make: a ticker case visits
    every entry of the table once. *)
Definition selectable (w : @World D S) (sel : selected) : Prop :=
  match sel with
  | CaseTick order => order ≡ₚ map_to_list (Aggregates (agg w))
  | _ => True
  end.

Inductive loop_status :=
| Selecting (closed : nat)
| Returned.

(** [a.closed <- true] *)
Definition signal_closed : M unit :=
  λ w, Ok tt (with_closed_signal Datatypes.S w).

(** [func (a *Aggregator) Dispatch(s SummaryReceiver)] from the loop test
    on, along the cases that the successive selects take; when the cases
    run out the loop is waiting in [select]. *)
Fixpoint Dispatch_loop (closed : nat) (cases : list selected) : M loop_status :=
  if (closed <? 2)%nat then
    match cases with
    | [] => ret (Selecting closed)
    | sel :: cases' =>
        do closed' <- select_case sel closed;
        Dispatch_loop closed' cases'
    end
  else
    run signal_closed;
    ret Returned.

Definition Dispatch (cases : list selected) : M loop_status :=
  Dispatch_loop 0 cases.

End code.

(** ** The loop as a transition system *)

Section system.
Context `{D : Declarations} {S : Type}.
Context `{SR : !SummaryReceiver S} `{RS : !RuleStore}.

(** The world around [NewAggregator()]: no instance allocated, no output. *)
Definition init_world (s : S) (clk : nat → Time) : @World D S :=
  {| agg := NewAggregator; heap := []; sink := s; clock := clk; reads := 0;
     oplog := []; received := []; ingested := []; evaluated := [];
     closed_signal := 0 |}.

(** Turns of the loop body that the runtime can take and that return. *)
Inductive steps : @World D S → @World D S → Prop :=
| steps_refl w : steps w w
| steps_turn w sel closed closed' w1 w2 :
    selectable w sel →
    select_case sel closed w = Ok closed' w1 →
    steps w1 w2 →
    steps w w2.

Definition reachable (w : @World D S) : Prop :=
  ∃ s clk, steps (init_world s clk) w.

(** Every case of the list is one the runtime can take when its turn
    comes. *)
Fixpoint selectable_along (cases : list selected) (w : @World D S) : Prop :=
  match cases with
  | [] => True
  | sel :: cases' =>
      selectable w sel ∧
      match select_case sel 0 w with
      | Ok _ w' => selectable_along cases' w'
      | Panic => True
      end
  end.

(** Calls of the methods of one instance, in any order. *)
Inductive method_call :=
| CallIngest (e : Event)
| CallTidy
| CallSendNotification.

Definition call_method (r : loc) (c : method_call) : @M D S unit :=
  match c with
  | CallIngest e => Ingest r e
  | CallTidy => Tidy r
  | CallSendNotification => SendNotification r
  end.

Fixpoint call_methods (r : loc) (cs : list method_call) : @M D S unit :=
  match cs with
  | [] => ret tt
  | c :: cs' => run call_method r c; call_methods r cs'
  end.

(** The dispatch state never goes back. *)
Definition state_le (s1 s2 : aggDispatchState) : Prop :=
  s1 = s2 ∨ (s1 = aggUnsent ∧ s2 = aggSent).

(** The calls to the receiver made for the instance at [r]. *)
Definition calls_for (r : loc) (w : @World D S) : list EventSummary :=
  (filter (λ c, c.1 = r) (received w)).*2.

(** The world after [Handles] was evaluated and logged for [r]. *)
Definition checked (r : RulePtr) (e : Event) (w : @World D S) : @World D S :=
  let h := Filters_Handles (Filters_of (rule_at r)) e in
  with_evaluated (λ t, t ++ [(r, e)])
    (with_oplog (λ o, o ++ [LogChecking r h])
       (with_evaluated (λ t, t ++ [(r, e)]) w)).

(** The world after the rules of [rs] were checked against [e], in order. *)
Definition checked_all (rs : list RulePtr) (e : Event) (w : @World D S)
    : @World D S :=
  foldl (λ w r, checked r e w) w rs.

(** The first rule of [rules] that handles [e] is [r]: it comes after
    [before], none of which handles [e], and is followed by [after]. *)
Definition first_match (rules : AggregationRules) (e : Event)
    (before : list RulePtr) (r : RulePtr) (after : list RulePtr) : Prop :=
  rules = before ++ r :: after ∧
  (∀ x, x ∈ before → Filters_Handles (Filters_of (rule_at x)) e = false) ∧
  Filters_Handles (Filters_of (rule_at r)) e = true.

(** The events that [Tidy] keeps at time [t]. *)
Definition kept (t : Time) (evs : list Event) : list Event :=
  List.filter (λ e, Before t (CreatedAt e)) evs.

(** The instance that a sweep at time [t] leaves of a non-empty [a]. *)
Definition tidied (t : Time) (a : AggregationInstance) : AggregationInstance :=
  {| Rule := Rule a; Events := kept t (Events a); EndsAt := EndsAt a;
     state := match kept t (Events a) with [] => aggSent | _ => state a end |}.

(** The summary that [SendNotification] builds of [a]. *)
Definition summary_of (a : AggregationInstance) : EventSummary :=
  {| summary_Rule := Rule a; summary_Events := Events a |}.

(** The dispatch state after the receiver answered [err]. *)
Definition state_after (err : option SendError) : aggDispatchState :=
  match err with
  | None => aggSent
  | Some err => if Retryable err then aggUnsent else aggSent
  end.

(** The world that [SendNotification] leaves of an unsent [a] at [r]. *)
Definition notified (r : loc) (a : AggregationInstance) (w : @World D S)
    : @World D S :=
  let '(s', err) := Receive (sink w) (summary_of a) in
  let w1 := with_call s' (r, summary_of a) w in
  match err with
  | None => with_heap (λ h, <[r := set_state aggSent a]> h) w1
  | Some err =>
      if Retryable err then w1
      else with_heap (λ h, <[r := set_state aggSent a]> h)
             (with_oplog (λ o, o ++ [LogUnretryable err]) w1)
  end.

(** The effect of a method called on the instance at [r]: the instance
    [a] is replaced by [a'], which has the same rule and expiry and a state
    not behind; the table is as before; the receiver is called (if at all)
    for [r] only, and only when [a] was unsent. *)
Definition in_place (r : loc) (a a' : AggregationInstance)
    (w w' : @World D S) : Prop :=
  agg w' = agg w ∧
  heap w' = <[r := a']> (heap w) ∧
  Rule a' = Rule a ∧
  EndsAt a' = EndsAt a ∧
  state_le (state a) (state a') ∧
  ∃ new, received w' = received w ++ new ∧
         ∀ c, c ∈ new → c.1 = r ∧ state a = aggUnsent.

(** The invariant of the table and the instance store. *)
Record good (w : @World D S) : Prop := {
  good_valid : ∀ fp l,
    Aggregates (agg w) !! fp = Some l → (l < length (heap w))%nat;
  good_inj : ∀ fp1 fp2 l,
    Aggregates (agg w) !! fp1 = Some l →
    Aggregates (agg w) !! fp2 = Some l → fp1 = fp2;
  good_size : size (Aggregates (agg w)) = length (heap w);
  good_sent : ∀ l a,
    heap w !! l = Some a → Events a = [] → state a = aggSent;
  good_routed : ∀ l e,
    (l, e) ∈ ingested w → Aggregates (agg w) !! Fingerprint e = Some l
}.

(** What every operation maintains between the world it starts in and the
    world it leaves: instances stay where they are with their rule, their
    dispatch state only advances, table entries stay, and the receiver is
    only called for instances that were unsent. *)
Record evolves (w w' : @World D S) : Prop := {
  ev_inst : ∀ l a,
    heap w !! l = Some a →
    ∃ a', heap w' !! l = Some a' ∧ Rule a' = Rule a ∧
          state_le (state a) (state a');
  ev_table : ∀ fp l,
    Aggregates (agg w) !! fp = Some l → Aggregates (agg w') !! fp = Some l;
  ev_calls : ∃ new,
    received w' = received w ++ new ∧
    ∀ l sm a, (l, sm) ∈ new → heap w !! l = Some a → state a = aggUnsent
}.

(** *** Further notions *)

(** The events appended to the instance at [l], in order of arrival. *)
Definition events_ingested (l : loc) (w : @World D S) : list Event :=
  (filter (λ c, c.1 = l) (ingested w)).*2.

(** Some rule of the list handles [e]. *)
Definition handled (rules : AggregationRules) (e : Event) : bool :=
  existsb (λ r, Filters_Handles (Filters_of (rule_at r)) e) rules.


(** The clock shows one time at every reading. *)
Definition steady (w : @World D S) : Prop :=
  ∀ n, clock w n = clock w 0%nat.

(** A property of worlds that looks at nothing but the table, the
    instances, the receiver with the calls made to it, and the appends. *)
Definition frame_closed (P : @World D S → Prop) : Prop :=
  ∀ w w',
    Aggregates (agg w') = Aggregates (agg w) → heap w' = heap w →
    sink w' = sink w → received w' = received w →
    ingested w' = ingested w →
    P w → P w'.

(** The events that an instance holds are events appended to it, in the
    order of their arrival. *)
Definition stored_in_order (w : @World D S) : Prop :=
  ∀ l a, heap w !! l = Some a → Events a `sublist_of` events_ingested l w.

(** Calls are made for allocated instances only; every instance has been
    offered to the receiver, and every summary sent for it carries its rule
    and at least one event. *)
Definition summaries_sound (w : @World D S) : Prop :=
  (∀ l sm, (l, sm) ∈ received w → (l < length (heap w))%nat) ∧
  (∀ l a, heap w !! l = Some a →
     (∃ sm, (l, sm) ∈ received w) ∧
     (∀ sm, (l, sm) ∈ received w →
            summary_Rule sm = Rule a ∧ summary_Events sm ≠ [])).

End system.

(** ** A small instance, for the examples *)

Module Demo.

Record event := {
  ev_fp : Z;
  ev_created : Z;
  ev_label : nat
}.

(** A filter set is a list of labels; it handles the events so labelled. *)
Definition handles (fs : list nat) (e : event) : bool :=
  existsb (Nat.eqb (ev_label e)) fs.

(** An error is its classification. *)
Definition decls : Declarations :=
  {| Event := event; CreatedAt := ev_created; Fingerprint := ev_fp;
     Filters := list nat; Filters_Handles := handles;
     SendError := bool; Retryable := λ b, b |}.

(** A receiver that answers from a script, then with success. *)
Definition scripted : @SummaryReceiver decls (list (option bool)) :=
  {| Receive := λ s _, match s with
                       | [] => ([], None)
                       | x :: s' => (s', x)
                       end |}.

(** Rule [r] handles the labels [1..r]. *)
Definition rules : @RuleStore decls :=
  {| rule_at := λ r, @Build_AggregationRule decls (seq 1 r) 60 |}.

Definition clk (n : nat) : Time := 100 + Z.of_nat n.

Definition e1 : event := {| ev_fp := 7; ev_created := 50; ev_label := 1 |}.
Definition e2 : event := {| ev_fp := 7; ev_created := 500; ev_label := 2 |}.
Definition e3 : event := {| ev_fp := 9; ev_created := 60; ev_label := 5 |}.

Definition start (s : list (option bool)) : @World decls (list (option bool)) :=
  init_world s clk.

Definition with_rules (rs : list RulePtr) (w : @World decls (list (option bool))) :=
  with_agg (λ a, {| Rules := rs; Aggregates := Aggregates a |}) w.

Definition instance (r : RulePtr) (evs : list event) (st : aggDispatchState)
    : @AggregationInstance decls :=
  @Build_AggregationInstance decls r evs zeroTime st.

(** A world with the given instances allocated (and an empty table). *)
Definition with_instances (h : list (@AggregationInstance decls))
    (w : @World decls (list (option bool))) :=
  with_heap (λ _, h) w.

Definition e4 : event := {| ev_fp := 7; ev_created := 70; ev_label := 1 |}.

Definition batch (es : list event) : @aggregateEventsRequest decls :=
  @Build_aggregateEventsRequest decls es.

Definition new_rules (rs : list RulePtr) : aggregatorResetRulesRequest :=
  {| req_Rules := rs |}.

Definition dispatch (cases : list (@selected decls))
    (w : @World decls (list (option bool))) :=
  @Dispatch decls _ scripted rules cases w.

Definition world_after (cases : list (@selected decls))
    (w : @World decls (list (option bool))) :=
  match dispatch cases w with
  | Ok _ w' => w'
  | Panic => w
  end.

(** Rules [2; 1] are set; [e1], [e2] (same fingerprint) and [e3] (handled
    by no rule) arrive in one batch. *)
Definition arrivals : list (@selected decls) :=
  [CaseRulesRequests (Msg (new_rules [2; 1]%nat));
   CaseAggRequests (Msg (batch [e1; e2; e3]))].


(** A world that holds one instance, of rule 1, outside any table. *)
Definition holding (s : list (option bool)) (evs : list event)
    (st : aggDispatchState) : @World decls (list (option bool)) :=
  with_instances [instance 1 evs st] (start s).

(** Calls on one instance: a new event, a send, a sweep, a send. *)
Definition calls : list (@method_call decls) :=
  [@CallIngest decls e4; @CallSendNotification decls; @CallTidy decls;
   @CallSendNotification decls].

(** Rules are set, [e1] arrives alone, and the ticker fires. *)
Definition swept : list (@selected decls) :=
  [CaseRulesRequests (Msg (new_rules [2; 1]%nat));
   CaseAggRequests (Msg (batch [e1]));
   CaseTick [(7, 0%nat)]].

(** *** Further worlds *)

(** The arrivals have been served. *)
Definition arrived : @World decls (list (option bool)) :=
  world_after arrivals (start []).

(** Rules [2; 1] are set and [e1] has arrived; the receiver answers from
    the script [s]. *)
Definition opening : list (@selected decls) :=
  [CaseRulesRequests (Msg (new_rules [2; 1]%nat));
   CaseAggRequests (Msg (batch [e1]))].

Definition opened (s : list (option bool)) : @World decls (list (option bool)) :=
  world_after opening (start s).

(** Two unsent instances under a clock that stands at 100. *)
Definition standing : @World decls (list (option bool)) :=
  {| agg := NewAggregator;
     heap := [instance 1 [e1; e2] aggUnsent; instance 2 [e3] aggUnsent];
     sink := []; clock := λ _, 100; reads := 0; oplog := [];
     received := []; ingested := []; evaluated := []; closed_signal := 0 |}.

Definition ingests (es : list event) : list (@method_call decls) :=
  @CallIngest decls <$> es.

Definition sweeps : list (@method_call decls) :=
  [@CallTidy decls; @CallTidy decls].

Definition summary (r : RulePtr) (es : list event) : @EventSummary decls :=
  @Build_EventSummary decls r es.

End Demo.

(** ** Proofs *)

Section proofs.
Context `{D : Declarations} {S : Type}.
Context `{SR : !SummaryReceiver S} `{RS : !RuleStore}.
Implicit Types (w : @World D S) (a : @AggregationInstance D) (r l : loc).

(** *** The loop of [Tidy] is a filter *)

Lemma tidy_loop_acc t (evs acc : list Event) :
  foldl (λ events e, if Before t (CreatedAt e) then events ++ [e] else events)
        acc evs
  = acc ++ kept t evs.
Proof.
  revert acc. induction evs as [|e evs IH]; intros acc; simpl.
  - by rewrite app_nil_r.
  - rewrite IH. destruct (Before t (CreatedAt e)); simpl; [|done].
    by rewrite <- app_assoc.
Qed.

Lemma tidy_loop_kept t (evs : list Event) : tidy_loop t evs = kept t evs.
Proof. unfold tidy_loop. by rewrite tidy_loop_acc. Qed.

Lemma length_zero_nil {A} (xs : list A) :
  (length xs =? 0)%nat = match xs with [] => true | _ => false end.
Proof. by destruct xs. Qed.

(** *** What the three methods compute *)

Lemma Ingest_run r e w a :
  heap w !! r = Some a →
  Ingest r e w
  = Ok tt (with_ingested (λ t, t ++ [(r, e)])
             (with_heap (λ h, <[r := set_Events (Events a ++ [e]) a]> h) w)).
Proof.
  intros Hr. unfold Ingest, bind, load, assign, note_ingested.
  simpl. by rewrite !Hr.
Qed.

Lemma Tidy_run_empty r w a :
  heap w !! r = Some a → Events a = [] →
  Tidy r w = Ok tt (with_oplog (λ o, o ++ [LogTidying]) w).
Proof.
  intros Hr He. unfold Tidy, bind, println, load. simpl.
  by rewrite !Hr, He.
Qed.

Lemma Tidy_run_sweep r w a :
  heap w !! r = Some a → Events a ≠ [] →
  Tidy r w
  = Ok tt (with_heap (λ h, <[r := tidied (clock w (reads w)) a]> h)
             (with_reads Datatypes.S (with_oplog (λ o, o ++ [LogTidying]) w))).
Proof.
  intros Hr He. unfold Tidy, bind, println, load, time_Now. simpl.
  rewrite Hr. destruct (Events a) as [|e0 evs] eqn:Hev; [done|].
  simpl. rewrite tidy_loop_kept, length_zero_nil.
  pose proof (lookup_lt_Some _ _ _ Hr) as Hlt.
  unfold tidied, assign, ret. rewrite Hev.
  destruct (kept _ (e0 :: evs)) as [|k ks] eqn:Hk; simpl; rewrite Hr.
  - unfold with_heap at 1; simpl. rewrite list_lookup_insert_eq by done.
    unfold with_heap; simpl. by rewrite list_insert_insert_eq.
  - unfold with_heap, set_Events; simpl. done.
Qed.

Lemma SendNotification_run_sent r w a :
  heap w !! r = Some a → state a = aggSent →
  SendNotification r w = Ok tt w.
Proof.
  intros Hr Hs. unfold SendNotification, bind, load. by rewrite Hr, Hs.
Qed.

Lemma SendNotification_run_unsent r w a :
  heap w !! r = Some a → state a = aggUnsent →
  SendNotification r w = Ok tt (notified r a w).
Proof.
  intros Hr Hs. unfold SendNotification, bind, load, sink_Receive, notified.
  rewrite Hr, Hs. fold (summary_of a).
  destruct (Receive (sink w) (summary_of a)) as [s' [err|]]; simpl.
  - destruct (Retryable err); [done|].
    unfold assign; simpl. by rewrite Hr.
  - unfold assign; simpl. by rewrite Hr.
Qed.

(** *** [state_le] and [evolves] are preorders *)

Lemma state_le_refl s : state_le s s.
Proof. by left. Qed.

Lemma state_le_trans s1 s2 s3 : state_le s1 s2 → state_le s2 s3 → state_le s1 s3.
Proof.
  intros [->|[-> ->]] [<-|[? ->]]; unfold state_le; auto.
Qed.

Lemma state_le_sent s : state_le aggSent s → s = aggSent.
Proof. by intros [<-|[? _]]. Qed.

Lemma state_le_to_sent s : state_le s aggSent.
Proof. unfold state_le. destruct s; auto. Qed.

Lemma evolves_refl w : evolves w w.
Proof.
  split.
  - intros l a Hl. exists a. eauto using state_le_refl.
  - done.
  - exists []. split; [by rewrite app_nil_r|].
    intros l sm a Hin. by apply elem_of_nil in Hin.
Qed.

Lemma evolves_trans w1 w2 w3 : evolves w1 w2 → evolves w2 w3 → evolves w1 w3.
Proof.
  intros [Hi1 Ht1 (n1 & Hr1 & Hn1)] [Hi2 Ht2 (n2 & Hr2 & Hn2)]. split.
  - intros l a Hl. destruct (Hi1 l a Hl) as (a1 & Hl1 & HR1 & Hs1).
    destruct (Hi2 l a1 Hl1) as (a2 & Hl2 & HR2 & Hs2).
    exists a2. split; [done|]. split; [congruence|].
    eauto using state_le_trans.
  - eauto.
  - exists (n1 ++ n2). split; [by rewrite Hr2, Hr1, app_assoc|].
    intros l sm a Hin Hl. apply elem_of_app in Hin as [Hin|Hin]; [eauto|].
    destruct (Hi1 l a Hl) as (a1 & Hl1 & _ & Hs1).
    specialize (Hn2 l sm a1 Hin Hl1). rewrite Hn2 in Hs1.
    destruct Hs1 as [?|[? _]]; done.
Qed.

(** Worlds that differ only outside the table, the store and the calls. *)
Lemma evolves_same w w' :
  Aggregates (agg w') = Aggregates (agg w) → heap w' = heap w →
  received w' = received w → evolves w w'.
Proof.
  intros Ha Hh Hr. split.
  - intros l a Hl. exists a. rewrite Hh. eauto using state_le_refl.
  - intros fp l. by rewrite Ha.
  - exists []. split; [by rewrite Hr, app_nil_r|].
    intros l sm a Hin. by apply elem_of_nil in Hin.
Qed.

Lemma good_same w w' :
  Aggregates (agg w') = Aggregates (agg w) → heap w' = heap w →
  ingested w' = ingested w →
  good w → good w'.
Proof.
  intros Ha Hh Hi [H1 H2 H3 H4 H5].
  split; rewrite ?Ha, ?Hh, ?Hi; done.
Qed.

Lemma evolves_length w w' l :
  evolves w w' → (l < length (heap w))%nat → (l < length (heap w'))%nat.
Proof.
  intros [Hi _ _] Hl. apply lookup_lt_is_Some in Hl as [a Ha].
  destruct (Hi l a Ha) as (a' & Ha' & _). by apply lookup_lt_Some in Ha'.
Qed.

(** An update in place of the instance at [r] that keeps the rule and
    does not move the state back. *)
Lemma evolves_update w w' r a a' new :
  heap w !! r = Some a →
  agg w' = agg w →
  heap w' = <[r := a']> (heap w) →
  Rule a' = Rule a →
  state_le (state a) (state a') →
  received w' = received w ++ new →
  (∀ c, c ∈ new → c.1 = r ∧ state a = aggUnsent) →
  evolves w w'.
Proof.
  intros Hr Ha Hh HR Hs Hrec Hnew. split.
  - intros l b Hl. rewrite Hh. destruct (decide (l = r)) as [->|Hne].
    + exists a'. rewrite list_lookup_insert_eq by eauto using lookup_lt_Some.
      assert (b = a) as -> by congruence. auto.
    + exists b. rewrite list_lookup_insert_ne by done.
      eauto using state_le_refl.
  - intros fp l. by rewrite Ha.
  - exists new. split; [done|]. intros l sm b Hin Hl.
    destruct (Hnew _ Hin) as [Heq Hu]. simpl in Heq. subst l. congruence.
Qed.


(** *** Methods update their receiver in place *)

Lemma in_place_lookup r a a' w w' :
  heap w !! r = Some a → in_place r a a' w w' → heap w' !! r = Some a'.
Proof.
  intros Hr (_ & Hh & _). rewrite Hh.
  apply list_lookup_insert_eq. eauto using lookup_lt_Some.
Qed.

Lemma in_place_evolves r a a' w w' :
  heap w !! r = Some a → in_place r a a' w w' → evolves w w'.
Proof.
  intros Hr (Ha & Hh & HR & _ & Hs & new & Hrec & Hnew).
  eauto using evolves_update.
Qed.

Lemma in_place_trans r a a1 a2 w w1 w2 :
  in_place r a a1 w w1 → in_place r a1 a2 w1 w2 → in_place r a a2 w w2.
Proof.
  intros (Ha & Hh & HR & HE & Hs & n1 & Hr1 & Hn1)
         (Ha' & Hh' & HR' & HE' & Hs' & n2 & Hr2 & Hn2).
  split; [congruence|]. split; [by rewrite Hh', Hh, list_insert_insert_eq|].
  split; [congruence|]. split; [congruence|].
  split; [eauto using state_le_trans|].
  exists (n1 ++ n2). split; [by rewrite Hr2, Hr1, app_assoc|].
  intros c Hin. apply elem_of_app in Hin as [Hin|Hin]; [eauto|].
  destruct (Hn2 c Hin) as [Hc Hu]. split; [done|].
  rewrite Hu in Hs. by destruct Hs as [?|[? _]].
Qed.

Lemma in_place_quiet r a a' w w' :
  agg w' = agg w → heap w' = <[r := a']> (heap w) →
  Rule a' = Rule a → EndsAt a' = EndsAt a → state_le (state a) (state a') →
  received w' = received w →
  in_place r a a' w w'.
Proof.
  intros ? ? ? ? ? Hrec. do 5 (split; [done|]).
  exists []. split; [by rewrite Hrec, app_nil_r|].
  intros c Hin. by apply elem_of_nil in Hin.
Qed.

Lemma in_place_id r a w w' :
  heap w !! r = Some a →
  agg w' = agg w → heap w' = heap w → received w' = received w →
  in_place r a a w w'.
Proof.
  intros Hr ? Hh ?. apply in_place_quiet; try done; [|apply state_le_refl].
  by rewrite Hh, list_insert_id.
Qed.

Lemma Ingest_in_place r e w a :
  heap w !! r = Some a →
  ∃ w', Ingest r e w = Ok tt w' ∧
        in_place r a (set_Events (Events a ++ [e]) a) w w' ∧
        ingested w' = ingested w ++ [(r, e)] ∧
        evaluated w' = evaluated w.
Proof.
  intros Hr. eexists. split; [by apply Ingest_run|].
  split; [|done]. apply in_place_quiet; try done. apply state_le_refl.
Qed.

Lemma Tidy_in_place r w a :
  heap w !! r = Some a →
  ∃ w' a', Tidy r w = Ok tt w' ∧ in_place r a a' w w' ∧
           (Events a = [] ∧ a' = a ∧ reads w' = reads w ∨
            Events a ≠ [] ∧ a' = tidied (clock w (reads w)) a ∧
            reads w' = Datatypes.S (reads w)) ∧
           ingested w' = ingested w ∧ evaluated w' = evaluated w.
Proof.
  intros Hr. destruct (decide (Events a = [])) as [He|He].
  - eexists _, a. split; [by eapply Tidy_run_empty|].
    split; [by apply in_place_id|]. split; [by left|done].
  - eexists _, _. split; [by eapply Tidy_run_sweep|].
    split; [|split; [by right|done]].
    apply in_place_quiet; try done. simpl.
    destruct (kept _ _); [apply state_le_to_sent|apply state_le_refl].
Qed.

Lemma SendNotification_in_place r w a :
  heap w !! r = Some a →
  ∃ w' a', SendNotification r w = Ok tt w' ∧ in_place r a a' w w' ∧
           Events a' = Events a ∧
           ingested w' = ingested w ∧ evaluated w' = evaluated w.
Proof.
  intros Hr. destruct (state a) eqn:Hs.
  - rewrite (SendNotification_run_unsent r w a Hr Hs). unfold notified.
    destruct (Receive (sink w) (summary_of a)) as [s' err].
    assert (∀ c, c ∈ [(r, summary_of a)] → c.1 = r ∧ state a = aggUnsent)
      as Hnew by (intros c ->%list_elem_of_singleton; done).
    destruct err as [err|]; [destruct (Retryable err)|].
    + eexists _, a. split; [done|]. split; [|done].
      repeat split; simpl; try done.
      * by rewrite list_insert_id.
      * apply state_le_refl.
      * eauto.
    + eexists _, (set_state aggSent a). split; [done|]. split; [|done].
      repeat split; simpl; try done.
      * apply state_le_to_sent.
      * eauto.
    + eexists _, (set_state aggSent a). split; [done|]. split; [|done].
      repeat split; simpl; try done.
      * apply state_le_to_sent.
      * eauto.
  - rewrite (SendNotification_run_sent r w a Hr Hs).
    eexists _, a. split; [done|]. split; [by apply in_place_id|done].
Qed.


(** *** The invariant under updates and allocations *)

Lemma good_update w w' r a' :
  good w →
  agg w' = agg w →
  heap w' = <[r := a']> (heap w) →
  (Events a' = [] → state a' = aggSent) →
  (∀ l e, (l, e) ∈ ingested w' →
          (l, e) ∈ ingested w ∨ Aggregates (agg w) !! Fingerprint e = Some l) →
  good w'.
Proof.
  intros [H1 H2 H3 H4 H5] Ha Hh Hs Hi. split; rewrite ?Ha, ?Hh.
  - intros fp l Hl. rewrite length_insert. eauto.
  - done.
  - by rewrite length_insert.
  - intros l a Hl. destruct (decide (l = r)) as [->|Hne].
    + apply list_lookup_insert_Some in Hl as [(_ & <- & _)|[? _]]; done.
    + rewrite list_lookup_insert_ne in Hl by done. eauto.
  - intros l e Hin. destruct (Hi l e Hin); eauto.
Qed.

Lemma good_alloc w w' fp a' :
  good w →
  Aggregates (agg w) !! fp = None →
  Aggregates (agg w') = <[fp := length (heap w)]> (Aggregates (agg w)) →
  heap w' = heap w ++ [a'] →
  (Events a' = [] → state a' = aggSent) →
  (∀ l e, (l, e) ∈ ingested w' →
          (l, e) ∈ ingested w ∨ (l = length (heap w) ∧ Fingerprint e = fp)) →
  good w'.
Proof.
  intros [H1 H2 H3 H4 H5] Hfp Ha Hh Hs Hi. split; rewrite ?Ha, ?Hh.
  - intros k l. rewrite length_app, lookup_insert. simpl.
    case_decide; [intros [= <-]; lia|]. intros Hl%H1. lia.
  - intros k1 k2 l. rewrite !lookup_insert.
    repeat case_decide; subst; try done.
    + intros [= <-] Hl%H1. lia.
    + intros Hl%H1 [= <-]. lia.
    + eauto.
  - rewrite map_size_insert_None, length_app by done. simpl. lia.
  - intros l a Hl. apply lookup_app_Some in Hl as [Hl|[_ Hl]]; [eauto|].
    apply list_lookup_singleton_Some in Hl as [_ <-]. done.
  - intros l e Hin. destruct (Hi l e Hin) as [Hold|[-> <-]].
    + rewrite lookup_insert_ne; [eauto|].
      intros Heq. specialize (H5 _ _ Hold). congruence.
    + by rewrite lookup_insert_eq.
Qed.

Lemma evolves_alloc w w' fp a' new :
  Aggregates (agg w) !! fp = None →
  Aggregates (agg w') = <[fp := length (heap w)]> (Aggregates (agg w)) →
  heap w' = heap w ++ [a'] →
  received w' = received w ++ new →
  (∀ c, c ∈ new → c.1 = length (heap w)) →
  evolves w w'.
Proof.
  intros Hfp Ha Hh Hrec Hnew. split.
  - intros l a Hl. exists a. rewrite Hh, lookup_app_l by eauto using lookup_lt_Some.
    eauto using state_le_refl.
  - intros k l Hk. rewrite Ha, lookup_insert_ne; [done|]. congruence.
  - exists new. split; [done|]. intros l sm a Hin Hl.
    apply Hnew in Hin. simpl in Hin. subst l.
    apply lookup_lt_Some in Hl. lia.
Qed.

(** *** [claim]: the element joins the instance of its fingerprint *)

Lemma claim_spec r e w :
  good w →
  ∃ w' l a',
    claim r e w = Ok tt w' ∧ good w' ∧ evolves w w' ∧
    Rules (agg w') = Rules (agg w) ∧
    evaluated w' = evaluated w ∧
    ingested w' = ingested w ++ [(l, e)] ∧
    Aggregates (agg w') !! Fingerprint e = Some l ∧
    heap w' !! l = Some a' ∧
    match Aggregates (agg w) !! Fingerprint e with
    | Some l0 =>
        l = l0 ∧ Aggregates (agg w') = Aggregates (agg w) ∧
        length (heap w') = length (heap w) ∧
        ∃ a, heap w !! l = Some a ∧ in_place l a a' w w' ∧
             Events a' = Events a ++ [e]
    | None =>
        l = length (heap w) ∧
        Aggregates (agg w') = <[Fingerprint e := l]> (Aggregates (agg w)) ∧
        heap w' = heap w ++ [a'] ∧ Rule a' = r ∧ Events a' = [e]
    end.
Proof.
  intros Hg. unfold claim, bind, get_agg.
  destruct (Aggregates (agg w) !! Fingerprint e) as [l|] eqn:Hfp; simpl.
  - destruct (lookup_lt_is_Some_2 (heap w) l) as [a Hl];
      [by eapply good_valid|].
    destruct (Ingest_in_place l e w a Hl) as (w1 & -> & Hp1 & Hi1 & He1).
    pose proof (in_place_lookup _ _ _ _ _ Hl Hp1) as Hl1.
    destruct (SendNotification_in_place l w1 _ Hl1)
      as (w2 & a2 & -> & Hp2 & Hev2 & Hi2 & He2).
    pose proof (in_place_trans _ _ _ _ _ _ _ Hp1 Hp2) as Hp.
    pose proof (in_place_lookup _ _ _ _ _ Hl Hp) as Hl2.
    pose proof Hp as (Ha & Hh & _). simpl in Hev2.
    exists w2, l, a2. split; [done|]. split.
    { eapply (good_update w w2 l a2); try done.
      - rewrite Hev2. by destruct (Events a).
      - intros l' e'. rewrite Hi2, Hi1, elem_of_app, list_elem_of_singleton.
        intros [?|[= -> ->]]; auto. }
    split; [by eapply in_place_evolves|].
    split; [by rewrite Ha|]. split; [congruence|]. split; [congruence|].
    split; [by rewrite Ha|]. split; [done|].
    split; [done|]. split; [by rewrite Ha|].
    split; [by rewrite Hh, length_insert|].
    exists a. done.
  - unfold alloc, set_Aggregates, ret; simpl.
    set (n := length (heap w)).
    set (new := {| Rule := r; Events := []; EndsAt := zeroTime;
                   state := aggUnsent |}).
    set (w0 := with_agg _ _).
    assert (heap w0 !! n = Some new) as Hl.
    { subst w0; simpl. by apply list_lookup_middle. }
    destruct (Ingest_in_place n e w0 new Hl) as (w1 & -> & Hp1 & Hi1 & He1).
    pose proof (in_place_lookup _ _ _ _ _ Hl Hp1) as Hl1.
    destruct (SendNotification_in_place n w1 _ Hl1)
      as (w2 & a2 & -> & Hp2 & Hev2 & Hi2 & He2).
    pose proof (in_place_trans _ _ _ _ _ _ _ Hp1 Hp2) as Hp.
    pose proof (in_place_lookup _ _ _ _ _ Hl Hp) as Hl2.
    destruct Hp as (Ha & Hh & HR & _ & _ & nw & Hrec & Hnw).
    simpl in Hev2, Ha, Hh, Hrec.
    assert (heap w2 = heap w ++ [a2]) as Hh2.
    { rewrite Hh. rewrite insert_app_r_alt by (subst n; lia).
      by rewrite Nat.sub_diag. }
    exists w2, n, a2. split; [done|]. split.
    { eapply (good_alloc w w2 (Fingerprint e) a2); try done.
      - by rewrite Ha.
      - by rewrite Hev2.
      - intros l' e'. rewrite Hi2, Hi1. simpl.
        rewrite elem_of_app, list_elem_of_singleton.
        intros [?|[= -> ->]]; auto. }
    split.
    { eapply (evolves_alloc w w2 (Fingerprint e) a2 nw); try done.
      - by rewrite Ha.
      - intros c Hc. by apply Hnw. }
    split; [by rewrite Ha|]. split; [by rewrite He2, He1|].
    split; [by rewrite Hi2, Hi1|].
    split; [by rewrite Ha; simpl; rewrite lookup_insert_eq|].
    split; [done|]. split; [done|]. split; [by rewrite Ha|].
    split; [done|]. split; [done|]. by rewrite Hev2.
Qed.


(** *** The loops of [aggregate] *)

Lemma range_Rules_cons e r rules w :
  range_Rules e (r :: rules) w
  = if Filters_Handles (Filters_of (rule_at r)) e
    then claim r e (checked r e w)
    else range_Rules e rules (checked r e w).
Proof.
  simpl. unfold bind, Handles, println, checked. simpl.
  by destruct (Filters_Handles (Filters_of (rule_at r)) e).
Qed.

Lemma checked_all_snoc rs r e w :
  checked_all (rs ++ [r]) e w = checked r e (checked_all rs e w).
Proof. unfold checked_all. by rewrite foldl_app. Qed.

Lemma checked_all_frame rs e w :
  agg (checked_all rs e w) = agg w ∧
  heap (checked_all rs e w) = heap w ∧
  sink (checked_all rs e w) = sink w ∧
  received (checked_all rs e w) = received w ∧
  ingested (checked_all rs e w) = ingested w.
Proof.
  revert w. induction rs as [|r rs IH]; intros w; [done|].
  change (checked_all (r :: rs) e w) with (checked_all rs e (checked r e w)).
  destruct (IH (checked r e w)) as (-> & -> & -> & -> & ->). done.
Qed.

Lemma checked_all_evaluated rs e w :
  evaluated (checked_all rs e w)
  = evaluated w ++ flat_map (λ r, [(r, e); (r, e)]) rs.
Proof.
  revert w. induction rs as [|r rs IH]; intros w; simpl.
  - by rewrite app_nil_r.
  - change (checked_all (r :: rs) e w) with (checked_all rs e (checked r e w)).
    rewrite IH. simpl. by rewrite <- !app_assoc.
Qed.

Lemma range_Rules_no_match e rules w :
  (∀ x, x ∈ rules → Filters_Handles (Filters_of (rule_at x)) e = false) →
  range_Rules e rules w = Ok tt (checked_all rules e w).
Proof.
  revert w. induction rules as [|r rules IH]; intros w Hno; [done|].
  rewrite range_Rules_cons, (Hno r) by apply list_elem_of_here.
  rewrite IH; [done|]. intros x Hx. apply Hno. by apply list_elem_of_further.
Qed.

Lemma range_Rules_match e rules before r after w :
  first_match rules e before r after →
  range_Rules e rules w = claim r e (checked_all (before ++ [r]) e w).
Proof.
  intros (-> & Hno & Hyes). revert w.
  induction before as [|x before IH]; intros w.
  - by rewrite app_nil_l, range_Rules_cons, Hyes.
  - rewrite <- app_comm_cons, range_Rules_cons, (Hno x)
      by apply list_elem_of_here.
    rewrite IH; [done|]. intros y Hy. apply Hno. by apply list_elem_of_further.
Qed.

(** Every rule list either has a first match for [e] or none at all. *)
Lemma first_match_or_none (rules : AggregationRules) (e : Event) :
  (∀ x, x ∈ rules → Filters_Handles (Filters_of (rule_at x)) e = false) ∨
  ∃ before r after, first_match rules e before r after.
Proof.
  induction rules as [|x rules IH].
  - left. intros x Hx. by apply elem_of_nil in Hx.
  - destruct (Filters_Handles (Filters_of (rule_at x)) e) eqn:Hx.
    + right. exists [], x, rules. split; [done|]. split; [|done].
      intros y Hy. by apply elem_of_nil in Hy.
    + destruct IH as [Hno|(before & r & after & -> & Hno & Hyes)].
      * left. intros y [->|Hy]%elem_of_cons; auto.
      * right. exists (x :: before), r, after. split; [done|]. split; [|done].
        intros y [->|Hy]%elem_of_cons; auto.
Qed.

Lemma good_checked_all rs e w : good w → good (checked_all rs e w).
Proof.
  destruct (checked_all_frame rs e w) as (Ha & ? & _ & _ & ?).
  apply good_same; by rewrite ?Ha.
Qed.

Lemma evolves_checked_all rs e w : evolves w (checked_all rs e w).
Proof.
  destruct (checked_all_frame rs e w) as (Ha & ? & _ & ? & _).
  apply evolves_same; by rewrite ?Ha.
Qed.

Lemma range_Rules_sound e rules w :
  good w →
  ∃ w', range_Rules e rules w = Ok tt w' ∧ good w' ∧ evolves w w' ∧
        Rules (agg w') = Rules (agg w).
Proof.
  intros Hg. destruct (first_match_or_none rules e)
    as [Hno|(before & r & after & Hm)].
  - rewrite range_Rules_no_match by done. eexists. split; [done|].
    split; [by apply good_checked_all|].
    split; [apply evolves_checked_all|].
    by destruct (checked_all_frame rules e w) as (-> & _).
  - rewrite (range_Rules_match _ _ _ _ _ _ Hm).
    set (w0 := checked_all _ e w).
    destruct (claim_spec r e w0) as (w' & l & a' & -> & Hg' & He' & HR' & _);
      [by apply good_checked_all|].
    exists w'. split; [done|]. split; [done|]. split.
    + eapply evolves_trans; [apply evolves_checked_all|done].
    + rewrite HR'. subst w0.
      by destruct (checked_all_frame (before ++ [r]) e w) as (-> & _).
Qed.

Lemma range_Events_sound evs w :
  good w →
  ∃ w', range_Events evs w = Ok tt w' ∧ good w' ∧ evolves w w' ∧
        Rules (agg w') = Rules (agg w).
Proof.
  revert w. induction evs as [|e evs IH]; intros w Hg.
  - exists w. eauto using evolves_refl.
  - simpl. unfold bind, get_agg.
    destruct (range_Rules_sound e (Rules (agg w)) w Hg)
      as (w1 & -> & Hg1 & He1 & HR1).
    destruct (IH w1 Hg1) as (w2 & -> & Hg2 & He2 & HR2).
    exists w2. split; [done|]. split; [done|].
    split; [eauto using evolves_trans|congruence].
Qed.

(** *** The two request handlers *)

Lemma aggregate_no_rules rq w :
  Rules (agg w) = [] →
  aggregate (Some rq) w = Ok {| Err := Some "No aggregation rules"%string |} w.
Proof. intros Hr. unfold aggregate, bind, get_agg. by rewrite Hr. Qed.

Lemma aggregate_nil w : aggregate None w = Panic.
Proof.
  unfold aggregate, bind, get_agg. by destruct (length (Rules (agg w)) =? 0)%nat.
Qed.

Lemma aggregate_sound rq w :
  good w → Rules (agg w) ≠ [] →
  ∃ w', aggregate (Some rq) w = Ok {| Err := None |} w' ∧
        good w' ∧ evolves w w' ∧ Rules (agg w') = Rules (agg w).
Proof.
  intros Hg Hr. unfold aggregate, bind, get_agg.
  rewrite length_zero_nil. destruct (Rules (agg w)) eqn:HR; [done|].
  simpl. set (w0 := with_oplog _ w).
  destruct (range_Events_sound (req_Events rq) w0) as (w' & -> & Hg' & He' & HR').
  { by apply (good_same w). }
  exists w'. split; [done|]. split; [done|]. split.
  - eapply evolves_trans; [|done]. by apply evolves_same.
  - rewrite HR'. subst w0. simpl. done.
Qed.

Lemma replaceRules_run rq w :
  replaceRules (Some rq) w
  = Ok ResetRulesResponse
      (with_agg (λ a : Aggregator,
                   {| Rules := req_Rules rq; Aggregates := Aggregates a |})
         (with_oplog (λ o, o ++ [LogReplacing (length (req_Rules rq))]) w)).
Proof. reflexivity. Qed.

Lemma replaceRules_nil w : replaceRules None w = Panic.
Proof. reflexivity. Qed.

(** *** The sweep *)

Lemma Tidy_sound r w :
  good w → (r < length (heap w))%nat →
  ∃ w', Tidy r w = Ok tt w' ∧ good w' ∧ evolves w w' ∧ agg w' = agg w.
Proof.
  intros Hg Hr. apply lookup_lt_is_Some in Hr as [a Hr].
  destruct (Tidy_in_place r w a Hr) as (w' & a' & -> & Hp & Hc & Hi & _).
  exists w'. split; [done|]. pose proof Hp as (Ha & Hh & _).
  split; [|split; [by eapply in_place_evolves|done]].
  eapply (good_update w w' r a'); try done.
  - destruct Hc as [(He & -> & _)|(_ & -> & _)].
    + by eapply good_sent.
    + simpl. by destruct (kept _ _).
  - intros l e. rewrite Hi. auto.
Qed.

Lemma range_Aggregates_sound (order : list (Z * nat)) w :
  good w →
  (∀ c, c ∈ order → (c.2 < length (heap w))%nat) →
  ∃ w', range_Aggregates order w = Ok tt w' ∧ good w' ∧ evolves w w' ∧
        agg w' = agg w.
Proof.
  revert w. induction order as [|[fp l] order IH]; intros w Hg Hv.
  - exists w. eauto using evolves_refl.
  - simpl. unfold bind.
    destruct (Tidy_sound l w Hg) as (w1 & -> & Hg1 & He1 & Ha1).
    { apply (Hv (fp, l)), list_elem_of_here. }
    destruct (IH w1 Hg1) as (w2 & -> & Hg2 & He2 & Ha2).
    { intros c Hc. eapply evolves_length; [done|].
      by apply Hv, list_elem_of_further. }
    exists w2. split; [done|]. split; [done|].
    split; [eauto using evolves_trans|congruence].
Qed.

(** *** The loop body and the reachable worlds *)

Lemma selectable_valid w order :
  good w → selectable w (CaseTick order) →
  ∀ c, c ∈ order → (c.2 < length (heap w))%nat.
Proof.
  intros Hg Hsel [fp l] Hc. simpl in *. rewrite Hsel in Hc.
  apply elem_of_map_to_list in Hc. by eapply good_valid.
Qed.

Lemma select_case_sound sel closed closed' w w' :
  good w → selectable w sel →
  select_case sel closed w = Ok closed' w' →
  good w' ∧ evolves w w' ∧ closed' = closed.
Proof.
  intros Hg Hsel. destruct sel as [[rq|]|[rq|]|order]; simpl; unfold bind.
  - destruct (Rules (agg w)) eqn:HR.
    + rewrite aggregate_no_rules by done. intros [= <- <-].
      eauto using evolves_refl.
    + destruct (aggregate_sound rq w Hg) as (w1 & -> & Hg1 & He1 & _);
        [by rewrite HR|].
      by intros [= <- <-].
  - by rewrite aggregate_nil.
  - rewrite replaceRules_run. intros [= <- <-].
    split; [by apply (good_same w)|]. split; [by apply evolves_same|done].
  - by rewrite replaceRules_nil.
  - destruct (range_Aggregates_sound order w Hg) as (w1 & -> & Hg1 & He1 & _);
      [by apply selectable_valid|].
    by intros [= <- <-].
Qed.

Lemma steps_sound w w' : good w → steps w w' → good w' ∧ evolves w w'.
Proof.
  intros Hg Hs. induction Hs as [w|w sel c c' w1 w2 Hsel Hrun Hs IH].
  - eauto using evolves_refl.
  - destruct (select_case_sound _ _ _ _ _ Hg Hsel Hrun) as (Hg1 & He1 & _).
    destruct (IH Hg1) as [Hg2 He2]. eauto using evolves_trans.
Qed.

Lemma init_good (s : S) clk : good (init_world s clk).
Proof.
  split; simpl.
  - intros fp l. by rewrite lookup_empty.
  - intros fp1 fp2 l. by rewrite lookup_empty.
  - by rewrite map_size_empty.
  - intros l a. by rewrite lookup_nil.
  - intros l e Hin. by apply elem_of_nil in Hin.
Qed.

Lemma reachable_good w : reachable w → good w.
Proof.
  intros (s & clk & Hs). by destruct (steps_sound _ _ (init_good s clk) Hs).
Qed.

Lemma Dispatch_loop_turn closed sel cases w :
  (closed < 2)%nat →
  Dispatch_loop closed (sel :: cases) w
  = match select_case sel closed w with
    | Ok closed' w' => Dispatch_loop closed' cases w'
    | Panic => Panic
    end.
Proof.
  intros Hc. apply Nat.ltb_lt in Hc.
  change (Dispatch_loop closed (sel :: cases))
    with (if (closed <? 2)%nat
          then bind (select_case sel closed) (λ c, Dispatch_loop c cases)
          else bind signal_closed (λ _, ret Returned)).
  by rewrite Hc.
Qed.

Lemma select_case_closed sel closed w closed' w' :
  select_case sel closed w = Ok closed' w' → closed' = closed.
Proof.
  destruct sel as [[rq|]|[rq|]|order]; simpl; unfold bind.
  - destruct (aggregate _ w); [|done]. by intros [= <- _].
  - by rewrite aggregate_nil.
  - by intros [= <- _].
  - done.
  - destruct (range_Aggregates _ w); [|done]. by intros [= <- _].
Qed.

Lemma Dispatch_loop_selecting cases w st w' :
  Dispatch_loop 0 cases w = Ok st w' → st = Selecting 0.
Proof.
  revert w. induction cases as [|sel cases IH]; intros w.
  - by intros [= <- _].
  - rewrite Dispatch_loop_turn by lia.
    destruct (select_case sel 0 w) as [c w1|] eqn:Hsel; [|done].
    apply select_case_closed in Hsel as ->. apply IH.
Qed.

(** *** Calls on one instance *)

Lemma call_method_in_place r c w a :
  heap w !! r = Some a →
  ∃ w' a', call_method r c w = Ok tt w' ∧ in_place r a a' w w'.
Proof.
  intros Hr. destruct c as [e| |]; simpl.
  - destruct (Ingest_in_place r e w a Hr) as (w' & ? & ? & _). eauto.
  - destruct (Tidy_in_place r w a Hr) as (w' & a' & ? & ? & _). eauto.
  - destruct (SendNotification_in_place r w a Hr) as (w' & a' & ? & ? & _).
    eauto.
Qed.

Lemma call_methods_in_place r cs w a :
  heap w !! r = Some a →
  ∃ w' a', call_methods r cs w = Ok tt w' ∧ in_place r a a' w w'.
Proof.
  revert w a. induction cs as [|c cs IH]; intros w a Hr.
  - exists w, a. split; [done|]. by apply in_place_id.
  - simpl. unfold bind.
    destruct (call_method_in_place r c w a Hr) as (w1 & a1 & -> & Hp1).
    destruct (IH w1 a1) as (w2 & a2 & -> & Hp2);
      [by eapply in_place_lookup|].
    eauto using in_place_trans.
Qed.

Lemma in_place_state r a a' w w' :
  heap w !! r = Some a → in_place r a a' w w' →
  heap w' !! r = Some a' ∧ state_le (state a) (state a').
Proof.
  intros Hr Hp. split; [by eapply in_place_lookup|].
  by destruct Hp as (_ & _ & _ & _ & ? & _).
Qed.

Lemma in_place_sent r a a' w w' :
  in_place r a a' w w' → state a = aggSent →
  state a' = aggSent ∧ received w' = received w.
Proof.
  intros (_ & _ & _ & _ & Hs & new & Hrec & Hnew) Hsent.
  rewrite Hsent in Hs. split; [by apply state_le_sent|].
  destruct new as [|c new]; [by rewrite Hrec, app_nil_r|].
  destruct (Hnew c) as [_ Hu]; [apply list_elem_of_here|]. congruence.
Qed.

Lemma evolves_sent_calls r a w w' :
  evolves w w' → heap w !! r = Some a → state a = aggSent →
  calls_for r w' = calls_for r w.
Proof.
  intros [_ _ (new & Hrec & Hnew)] Hr Hs. unfold calls_for.
  rewrite Hrec, filter_app. clear Hrec.
  assert (filter (λ c : nat * EventSummary, c.1 = r) new = []) as ->;
    [|by rewrite app_nil_r].
  induction new as [|[l sm] new IH]; [done|].
  rewrite filter_cons. simpl. case_decide as Hl.
  - subst l. assert (state a = aggUnsent); [|congruence].
    eapply Hnew; [apply list_elem_of_here|done].
  - apply IH. intros l' sm' a' Hin. apply (Hnew l' sm').
    by apply list_elem_of_further.
Qed.

Lemma Dispatch_steps cases w st w' :
  selectable_along cases w →
  Dispatch cases w = Ok st w' →
  steps w w'.
Proof.
  unfold Dispatch. revert w. induction cases as [|sel cases IH]; intros w.
  - intros _ [= _ <-]. apply steps_refl.
  - intros [Hsel Halong]. rewrite Dispatch_loop_turn by lia.
    destruct (select_case sel 0 w) as [c w1|] eqn:Hrun; [|done].
    pose proof (select_case_closed _ _ _ _ _ Hrun) as ->.
    intros Hrest. eapply steps_turn; [done..|]. by apply IH.
Qed.

(** ** The specification, claim by claim *)

(** C1 (as amended). For every aggregation instance, [Tidy] keeps exactly
    the events of its sequence created strictly after the time that [Tidy]
    reads, in their order, and drops the others; when a non-empty sequence
    is emptied in this way the dispatch state becomes [aggSent] whatever it
    was; on an instance whose sequence is already empty [Tidy] returns at
    once and leaves the instance, its dispatch state included, as it is. *)
Theorem Tidy_keeps_events_created_after_now r w a :
  heap w !! r = Some a →
  ∃ w' a',
    Tidy r w = Ok tt w' ∧
    heap w' = <[r := a']> (heap w) ∧
    heap w' !! r = Some a' ∧
    Events a'
    = List.filter (λ e, Before (clock w (reads w)) (CreatedAt e)) (Events a) ∧
    (∀ e, e ∈ Events a' ↔ e ∈ Events a ∧ clock w (reads w) < CreatedAt e) ∧
    (Events a ≠ [] → Events a' = [] → state a' = aggSent) ∧
    (Events a' ≠ [] → state a' = state a) ∧
    (Events a = [] → a' = a).
Proof.
  intros Hr.
  destruct (Tidy_in_place r w a Hr) as (w' & a' & Hrun & Hp & Hc & _).
  exists w', a'. split; [done|]. split; [by destruct Hp as (_ & ? & _)|].
  split; [by eapply in_place_lookup|].
  assert (Events a' = kept (clock w (reads w)) (Events a)) as Hk.
  { destruct Hc as [(He & -> & _)|(_ & -> & _)]; [by rewrite He|done]. }
  split; [done|]. split.
  { intros e. rewrite Hk. unfold kept.
    rewrite !list_elem_of_In, List.filter_In. unfold Before.
    by rewrite Z.ltb_lt. }
  destruct Hc as [(He & -> & _)|(He & -> & _)].
  - by rewrite He.
  - simpl. split; [by intros _ ->|]. split; [|done].
    by destruct (kept _ _).
Qed.

(** C2. When the rule list is empty, [aggregate] answers the request with
    the error "No aggregation rules" and leaves the whole world as it was:
    no element of the batch is processed, the table and every instance are
    unchanged. The caller of [Receive] gets that error, and the loop turn
    that serves the request changes nothing either. *)
Theorem aggregate_without_rules rq w closed :
  Rules (agg w) = [] →
  aggregate (Some rq) w
  = Ok {| Err := Some "No aggregation rules"%string |} w ∧
  Aggregator_Receive (req_Events rq) w
  = Ok (Some "No aggregation rules"%string) w ∧
  select_case (CaseAggRequests (Msg rq)) closed w = Ok closed w.
Proof.
  intros HR. split; [by apply aggregate_no_rules|]. split.
  - unfold Aggregator_Receive, bind. by rewrite aggregate_no_rules.
  - simpl. unfold bind. by rewrite aggregate_no_rules.
Qed.

(** C5. On an unsent instance [SendNotification] calls the receiver once,
    with the summary of the rule and the whole current event sequence of
    the instance. After a nil answer the state is [aggSent]; after a
    retryable error it is still [aggUnsent]; after an error that is not
    retryable it is [aggSent]. Nothing else of the instance changes, the
    method returns no value, and a request handled with a non-empty rule
    list is answered without error whatever the receiver said. *)
Theorem SendNotification_unsent r w a :
  heap w !! r = Some a →
  state a = aggUnsent →
  ∃ w' s' err,
    Receive (sink w) {| summary_Rule := Rule a; summary_Events := Events a |}
    = (s', err) ∧
    SendNotification r w = Ok tt w' ∧
    received w'
    = received w ++ [(r, {| summary_Rule := Rule a;
                            summary_Events := Events a |})] ∧
    sink w' = s' ∧
    agg w' = agg w ∧
    heap w' = <[r := set_state (state_after err) a]> (heap w) ∧
    (err = None → state_after err = aggSent) ∧
    (∀ x, err = Some x → Retryable x = true → state_after err = aggUnsent) ∧
    (∀ x, err = Some x → Retryable x = false → state_after err = aggSent) ∧
    (∀ rq resp w1 w2,
       Rules (agg w1) ≠ [] → aggregate rq w1 = Ok resp w2 → Err resp = None).
Proof.
  intros Hr Hs. rewrite (SendNotification_run_unsent r w a Hr Hs).
  unfold notified. fold (summary_of a).
  destruct (Receive (sink w) (summary_of a)) as [s' err].
  eexists _, s', err. split; [done|]. split; [done|].
  assert (set_state aggUnsent a = a) as Hid by (destruct a; simpl in *; by subst).
  split; [by destruct err as [x|]; [destruct (Retryable x)|]|].
  split; [by destruct err as [x|]; [destruct (Retryable x)|]|].
  split; [by destruct err as [x|]; [destruct (Retryable x)|]|].
  split.
  { destruct err as [x|]; simpl; [destruct (Retryable x); simpl|]; try done.
    by rewrite Hid, list_insert_id. }
  split; [by intros ->|].
  split; [by intros x -> Hx; simpl; rewrite Hx|].
  split; [by intros x -> Hx; simpl; rewrite Hx|].
  intros rq resp w1 w2 HR. unfold aggregate, bind, get_agg.
  rewrite length_zero_nil. destruct (Rules (agg w1)); [done|].
  destruct rq as [rq|]; simpl; [|done].
  destruct (range_Events _ _); [|done]. by intros [= <- _].
Qed.

(** C7. [replaceRules] puts the rule list of the request in the place of
    the old one (the old rules are not kept) and changes nothing else of the
    aggregator: the table has the same keys and values, every instance is
    what it was and so refers to the same rule object. The same holds for
    the loop turn that serves the request. *)
Theorem replaceRules_keeps_instances rq w closed :
  ∃ w',
    replaceRules (Some rq) w = Ok ResetRulesResponse w' ∧
    select_case (CaseRulesRequests (Msg rq)) closed w = Ok closed w' ∧
    Rules (agg w') = req_Rules rq ∧
    Aggregates (agg w') = Aggregates (agg w) ∧
    heap w' = heap w ∧
    (∀ fp l a, Aggregates (agg w) !! fp = Some l → heap w !! l = Some a →
               Aggregates (agg w') !! fp = Some l ∧
               ∃ a', heap w' !! l = Some a' ∧ a' = a ∧ Rule a' = Rule a) ∧
    sink w' = sink w ∧ received w' = received w ∧ ingested w' = ingested w.
Proof.
  eexists. split; [apply replaceRules_run|]. split; [done|].
  simpl. repeat split; try done. eauto.
Qed.

(** C8, evaluated on the code. A receive from a closed intake channel
    yields the nil request; the loop passes it to the handler before it
    looks at [open], and the handler dereferences it. So the turn in which
    the loop sees a closure stops the program: the closure is not counted,
    the loop does not leave, and nothing is sent on [closed]. This holds
    whatever the aggregator holds and whatever turns would follow, in
    particular for the two closures that [Close] makes. As a closure is
    the only turn that would count, a run of [Dispatch] that has not
    stopped is still selecting with [closed = 0]: it never returns. *)
Theorem Dispatch_stops_at_closure w cases :
  select_case (CaseAggRequests Closed) 0 w = Panic ∧
  select_case (CaseRulesRequests Closed) 0 w = Panic ∧
  Dispatch (CaseRulesRequests Closed :: cases) w = Panic ∧
  Dispatch (CaseAggRequests Closed :: cases) w = Panic ∧
  (∀ st w', Dispatch cases w = Ok st w' → st = Selecting 0).
Proof.
  assert (∀ c, select_case (CaseAggRequests Closed) c w = Panic) as Hagg.
  { intros c. simpl. unfold bind. by rewrite aggregate_nil. }
  assert (∀ c, select_case (CaseRulesRequests Closed) c w = Panic) as Hrules.
  { intros c. reflexivity. }
  split; [done|]. split; [done|]. unfold Dispatch.
  rewrite !Dispatch_loop_turn by lia. rewrite Hagg, Hrules.
  split; [done|]. split; [done|]. intros st w'. apply Dispatch_loop_selecting.
Qed.

(** C3. The rules are tried in list order against an element. If some
    rule handles it, the first such rule [r] claims it: [Handles] is
    evaluated for the rules before [r] and for [r] and for no rule after
    it, and the element is appended to the instance of its fingerprint,
    which carries rule [r] when it is created for this element. If no rule
    handles the element, every rule is tried and the table, the
    instances, the receiver and the calls made to it are as before. *)
Theorem first_matching_rule_claims e rules w :
  good w →
  ∃ w',
    range_Rules e rules w = Ok tt w' ∧
    ((∃ before r after l a',
        first_match rules e before r after ∧
        evaluated w'
        = evaluated w ++ flat_map (λ x, [(x, e); (x, e)]) (before ++ [r]) ∧
        claim r e (checked_all (before ++ [r]) e w) = Ok tt w' ∧
        ingested w' = ingested w ++ [(l, e)] ∧
        Aggregates (agg w') !! Fingerprint e = Some l ∧
        heap w' !! l = Some a' ∧
        last (Events a') = Some e ∧
        (Aggregates (agg w) !! Fingerprint e = None → Rule a' = r)) ∨
     ((∀ x, x ∈ rules → Filters_Handles (Filters_of (rule_at x)) e = false) ∧
      evaluated w' = evaluated w ++ flat_map (λ x, [(x, e); (x, e)]) rules ∧
      agg w' = agg w ∧ heap w' = heap w ∧ sink w' = sink w ∧
      received w' = received w ∧ ingested w' = ingested w)).
Proof.
  intros Hg. destruct (first_match_or_none rules e)
    as [Hno|(before & r & after & Hm)].
  - rewrite range_Rules_no_match by done. eexists. split; [done|]. right.
    split; [done|]. split; [apply checked_all_evaluated|].
    by destruct (checked_all_frame rules e w) as (-> & -> & -> & -> & ->).
  - rewrite (range_Rules_match _ _ _ _ _ _ Hm).
    set (w0 := checked_all (before ++ [r]) e w).
    destruct (checked_all_frame (before ++ [r]) e w)
      as (Ha0 & Hh0 & _ & _ & Hi0). fold w0 in Ha0, Hh0, Hi0.
    destruct (claim_spec r e w0)
      as (w' & l & a' & Hrun & _ & _ & _ & Hev & Hin & Hfp & Hl & Hcase);
      [by apply good_checked_all|].
    exists w'. split; [done|]. left. exists before, r, after, l, a'.
    split; [done|].
    split; [rewrite Hev; apply checked_all_evaluated|].
    split; [done|]. split; [by rewrite Hin, Hi0|].
    split; [done|]. split; [done|]. rewrite Ha0 in Hcase.
    destruct (Aggregates (agg w) !! Fingerprint e) as [l0|].
    + destruct Hcase as (_ & _ & _ & a & _ & _ & ->).
      split; [by rewrite last_snoc|done].
    + destruct Hcase as (_ & _ & _ & HR & ->). done.
Qed.

(** C4. The dispatch state of an instance only advances: each of [Ingest],
    [Tidy], [SendNotification], the handling of a request by [aggregate],
    and any sequence of turns of the loop leaves the state of every
    existing instance as it was or moves it from [aggUnsent] to [aggSent].
    So once an instance is sent, it stays sent through any calls of its
    methods, and neither those calls nor any turns of the loop call the
    receiver for it again. *)
Theorem dispatch_state_only_advances r w a :
  good w →
  heap w !! r = Some a →
  (∀ e, ∃ w' a', Ingest r e w = Ok tt w' ∧ heap w' !! r = Some a' ∧
                 state_le (state a) (state a')) ∧
  (∃ w' a', Tidy r w = Ok tt w' ∧ heap w' !! r = Some a' ∧
            state_le (state a) (state a')) ∧
  (∃ w' a', SendNotification r w = Ok tt w' ∧ heap w' !! r = Some a' ∧
            state_le (state a) (state a')) ∧
  (∀ rq, ∃ resp w' a', aggregate (Some rq) w = Ok resp w' ∧
                       heap w' !! r = Some a' ∧
                       state_le (state a) (state a')) ∧
  (∀ w', steps w w' →
         ∃ a', heap w' !! r = Some a' ∧ state_le (state a) (state a')) ∧
  (state a = aggSent →
   (∀ cs, ∃ w' a', call_methods r cs w = Ok tt w' ∧ heap w' !! r = Some a' ∧
                   state a' = aggSent ∧ received w' = received w) ∧
   (∀ w', steps w w' → calls_for r w' = calls_for r w)).
Proof.
  intros Hg Hr.
  assert (∀ c, ∃ w' a', call_method r c w = Ok tt w' ∧
                        heap w' !! r = Some a' ∧
                        state_le (state a) (state a')) as Hcall.
  { intros c. destruct (call_method_in_place r c w a Hr) as (w' & a' & ? & Hp).
    exists w', a'. split; [done|]. by eapply in_place_state. }
  split; [intros e; apply (Hcall (CallIngest e))|].
  split; [apply (Hcall CallTidy)|].
  split; [apply (Hcall CallSendNotification)|].
  split.
  { intros rq. destruct (Rules (agg w)) as [|x rs] eqn:HR.
    - rewrite aggregate_no_rules by done. eexists _, w, a.
      split; [done|]. split; [done|apply state_le_refl].
    - destruct (aggregate_sound rq w Hg) as (w' & -> & _ & [Hi _ _] & _);
        [by rewrite HR|].
      destruct (Hi r a Hr) as (a' & ? & _ & ?). by eexists _, w', a'. }
  split.
  { intros w' Hs. destruct (steps_sound w w' Hg Hs) as [_ [Hi _ _]].
    destruct (Hi r a Hr) as (a' & ? & _ & ?). eauto. }
  intros Hsent. split.
  - intros cs. destruct (call_methods_in_place r cs w a Hr) as (w' & a' & ? & Hp).
    exists w', a'. split; [done|]. split; [by eapply in_place_lookup|].
    by eapply in_place_sent.
  - intros w' Hs. destruct (steps_sound w w' Hg Hs) as [_ He].
    by eapply evolves_sent_calls.
Qed.

(** C6. In every world that the loop reaches, a fingerprint has at most
    one instance and an instance has one fingerprint: the table is
    injective, it points at allocated instances, and there are as many
    instances as fingerprints. Every two events ever appended with equal
    fingerprints were appended to the same instance, and a table entry once
    made stays. A claimed element joins the instance its fingerprint maps
    to, and an instance is created only when the fingerprint is absent;
    the next element with the same fingerprint then joins that same
    instance and none is created. *)
Theorem one_instance_per_fingerprint w :
  reachable w →
  (∀ fp1 fp2 l,
     Aggregates (agg w) !! fp1 = Some l →
     Aggregates (agg w) !! fp2 = Some l → fp1 = fp2) ∧
  (∀ fp l, Aggregates (agg w) !! fp = Some l → is_Some (heap w !! l)) ∧
  size (Aggregates (agg w)) = length (heap w) ∧
  (∀ l1 l2 e1 e2,
     (l1, e1) ∈ ingested w → (l2, e2) ∈ ingested w →
     Fingerprint e1 = Fingerprint e2 → l1 = l2) ∧
  (∀ w' fp l,
     steps w w' → Aggregates (agg w) !! fp = Some l →
     Aggregates (agg w') !! fp = Some l) ∧
  (∀ r e, ∃ w' l a',
     claim r e w = Ok tt w' ∧
     Aggregates (agg w') !! Fingerprint e = Some l ∧
     heap w' !! l = Some a' ∧
     last (Events a') = Some e ∧
     ingested w' = ingested w ++ [(l, e)] ∧
     (∀ l0, Aggregates (agg w) !! Fingerprint e = Some l0 →
            l = l0 ∧ length (heap w') = length (heap w) ∧
            Aggregates (agg w') = Aggregates (agg w)) ∧
     (Aggregates (agg w) !! Fingerprint e = None →
      l = length (heap w) ∧ length (heap w') = Datatypes.S (length (heap w)) ∧
      Aggregates (agg w') = <[Fingerprint e := l]> (Aggregates (agg w))) ∧
     (∀ r2 e2, Fingerprint e2 = Fingerprint e →
        ∃ w'' a'',
          claim r2 e2 w' = Ok tt w'' ∧
          heap w'' !! l = Some a'' ∧
          Events a'' = Events a' ++ [e2] ∧
          ingested w'' = ingested w' ++ [(l, e2)] ∧
          length (heap w'') = length (heap w') ∧
          Aggregates (agg w'') = Aggregates (agg w'))).
Proof.
  intros Hg%reachable_good.
  split; [apply Hg|].
  split; [intros fp l Hl; by eapply lookup_lt_is_Some, good_valid|].
  split; [apply Hg|].
  split.
  { intros l1 l2 e1 e2 H1%(good_routed _ Hg) H2%(good_routed _ Hg) Hfp.
    rewrite Hfp in H1. congruence. }
  split.
  { intros w' fp l Hs. destruct (steps_sound w w' Hg Hs) as [_ [_ Ht _]]. eauto. }
  intros r e.
  destruct (claim_spec r e w Hg)
    as (w' & l & a' & Hrun & Hg' & _ & _ & _ & Hin & Hfp & Hl & Hcase).
  exists w', l, a'. split; [done|]. split; [done|]. split; [done|].
  split.
  { destruct (Aggregates (agg w) !! Fingerprint e) as [l0|].
    - destruct Hcase as (_ & _ & _ & a & _ & _ & ->). by rewrite last_snoc.
    - by destruct Hcase as (_ & _ & _ & _ & ->). }
  split; [done|]. split.
  { intros l0 Hl0. rewrite Hl0 in Hcase. by destruct Hcase as (-> & -> & -> & _). }
  split.
  { intros Hnone. rewrite Hnone in Hcase.
    destruct Hcase as (-> & -> & -> & _). rewrite length_app. simpl.
    split; [done|]. split; [lia|done]. }
  intros r2 e2 Heq.
  destruct (claim_spec r2 e2 w' Hg')
    as (w2 & l2 & a2 & Hrun2 & _ & _ & _ & _ & Hin2 & _ & Hl2 & Hcase2).
  rewrite Heq, Hfp in Hcase2.
  destruct Hcase2 as (-> & Ha2 & Hlen2 & a & Ha & _ & Hev2).
  assert (a = a') as -> by congruence.
  by exists w2, a2.
Qed.

(** C9. The rule of an instance is the rule that claimed the element it
    was created for, that is the first rule of the list that handles the
    element, and it is never changed afterwards: not by a method of the
    instance, not by a replacement of the rules, not by any sequence of
    turns of the loop, and not when another rule claims a later element
    with the same fingerprint. *)
Theorem Rule_is_set_at_creation_only w :
  good w →
  (∀ rules e before r after,
     first_match rules e before r after →
     Aggregates (agg w) !! Fingerprint e = None →
     ∃ w' a',
       range_Rules e rules w = Ok tt w' ∧
       Aggregates (agg w') !! Fingerprint e = Some (length (heap w)) ∧
       heap w' = heap w ++ [a'] ∧ Rule a' = r) ∧
  (∀ l a,
     heap w !! l = Some a →
     (∀ c, ∃ w' a', call_method l c w = Ok tt w' ∧ heap w' !! l = Some a' ∧
                    Rule a' = Rule a) ∧
     (∀ rq, ∃ w', replaceRules (Some rq) w = Ok ResetRulesResponse w' ∧
                  heap w' !! l = Some a) ∧
     (∀ w', steps w w' → ∃ a', heap w' !! l = Some a' ∧ Rule a' = Rule a) ∧
     (∀ r2 e2,
        Aggregates (agg w) !! Fingerprint e2 = Some l →
        ∃ w' a', claim r2 e2 w = Ok tt w' ∧ heap w' !! l = Some a' ∧
                 Events a' = Events a ++ [e2] ∧ Rule a' = Rule a)).
Proof.
  intros Hg. split.
  - intros rules e before r after Hm Hnone.
    rewrite (range_Rules_match _ _ _ _ _ _ Hm).
    set (w0 := checked_all (before ++ [r]) e w).
    destruct (checked_all_frame (before ++ [r]) e w) as (Ha0 & Hh0 & _).
    fold w0 in Ha0, Hh0.
    destruct (claim_spec r e w0)
      as (w' & l & a' & Hrun & _ & _ & _ & _ & _ & Hfp & _ & Hcase);
      [by apply good_checked_all|].
    rewrite Ha0, Hnone, Hh0 in Hcase. destruct Hcase as (-> & _ & ? & ? & _).
    by exists w', a'.
  - intros l a Hl. split.
    { intros c. destruct (call_method_in_place l c w a Hl) as (w' & a' & ? & Hp).
      exists w', a'. split; [done|]. split; [by eapply in_place_lookup|].
      by destruct Hp as (_ & _ & ? & _). }
    split; [intros rq; eexists; split; [apply replaceRules_run|done]|].
    split.
    { intros w' Hs. destruct (steps_sound w w' Hg Hs) as [_ [Hi _ _]].
      destruct (Hi l a Hl) as (a' & ? & ? & _). eauto. }
    intros r2 e2 Hfp.
    destruct (claim_spec r2 e2 w Hg)
      as (w' & l' & a' & Hrun & _ & _ & _ & _ & _ & _ & Hl' & Hcase).
    rewrite Hfp in Hcase. destruct Hcase as (-> & _ & _ & b & Hb & Hp & Hev).
    assert (b = a) as -> by congruence.
    exists w', a'. split; [done|]. split; [done|]. split; [done|].
    by destruct Hp as (_ & _ & ? & _).
Qed.

(** C10. In every world that the loop reaches, an instance whose event
    sequence is empty is sent; that is, an unsent instance holds at least
    one event. *)
Theorem empty_instance_is_sent w l a :
  reachable w →
  heap w !! l = Some a →
  (Events a = [] → state a = aggSent) ∧
  (state a = aggUnsent → Events a ≠ []).
Proof.
  intros Hg%reachable_good Hl. split.
  - by eapply good_sent.
  - intros Hu He. assert (state a = aggSent) by (by eapply good_sent).
    congruence.
Qed.

End proofs.

(** ** The theorems at work on the small instance *)

(** The world after the two arrivals is one the loop reaches. *)
Lemma arrivals_reachable :
  @reachable Demo.decls _ Demo.scripted Demo.rules
    (Demo.world_after Demo.arrivals (Demo.start [])).
Proof.
  exists [], Demo.clk. apply (Dispatch_steps Demo.arrivals _ (Selecting 0)).
  - vm_compute. done.
  - vm_compute. reflexivity.
Qed.

(** So is the world after the sweep. *)
Lemma swept_reachable :
  @reachable Demo.decls _ Demo.scripted Demo.rules
    (Demo.world_after Demo.swept (Demo.start [])).
Proof.
  exists [], Demo.clk. apply (Dispatch_steps Demo.swept _ (Selecting 0)).
  - vm_compute. done.
  - vm_compute. reflexivity.
Qed.

(** The receiver answers a retryable error twice: the instance stays
    unsent and the second summary holds both events. *)
Example retryable_error_is_tried_again :
  let w := Demo.world_after Demo.arrivals
             (Demo.start [Some true; Some true]) in
  heap w = [Demo.instance 2 [Demo.e1; Demo.e2] aggUnsent] ∧
  received w
  = [(0%nat, @Build_EventSummary Demo.decls 2 [Demo.e1]);
     (0%nat, @Build_EventSummary Demo.decls 2 [Demo.e1; Demo.e2])] ∧
  sink w = [].
Proof. vm_compute. done. Qed.

(** [Close] closes the rules channel, then the events channel: the loop
    stops at the first closure it receives. *)
Example Close_stops_the_loop :
  Demo.dispatch (Demo.arrivals ++ [CaseRulesRequests Closed;
                                   CaseAggRequests Closed])
    (Demo.start [])
  = Panic.
Proof. vm_compute. reflexivity. Qed.

(** At time 100 an unsent instance holding [e1] (created at 50) and [e2]
    (created at 500) keeps [e2] and stays unsent. *)
Lemma Tidy_keeps_events_created_after_now_witness :
  heap (Demo.holding [] [Demo.e1; Demo.e2] aggUnsent) !! 0%nat
  = Some (Demo.instance 1 [Demo.e1; Demo.e2] aggUnsent) ∧
  ∃ w' a',
    @Tidy Demo.decls _ 0 (Demo.holding [] [Demo.e1; Demo.e2] aggUnsent)
    = Ok tt w' ∧
    heap w' !! 0%nat = Some a' ∧
    Events a' = [Demo.e2] ∧ state a' = aggUnsent.
Proof.
  split; [reflexivity|].
  destruct (@Tidy_keeps_events_created_after_now Demo.decls _ 0
              (Demo.holding [] [Demo.e1; Demo.e2] aggUnsent)
              (Demo.instance 1 [Demo.e1; Demo.e2] aggUnsent) eq_refl)
    as (w' & a' & Hrun & _ & Hl & Hev & _ & _ & Hst & _).
  exists w', a'. split; [exact Hrun|]. split; [exact Hl|].
  split; [exact Hev|]. apply Hst. rewrite Hev. discriminate.
Defined.

(** C1 as stated, at an unsent instance without events: after [Tidy] the
    retained sequence is empty, and the state is not [aggSent]. *)
Lemma Tidy_empty_unsent_counterexample :
  ¬ (∀ w' a',
       @Tidy Demo.decls _ 0 (Demo.holding [] [] aggUnsent) = Ok tt w' →
       heap w' !! 0%nat = Some a' →
       Events a' = [] →
       state a' = aggSent).
Proof.
  intros H.
  specialize (H _ (Demo.instance 1 [] aggUnsent) eq_refl eq_refl eq_refl).
  discriminate H.
Qed.

(** A batch sent to the new aggregator, which has no rules. *)
Lemma aggregate_without_rules_witness :
  Rules (agg (Demo.start [])) = [] ∧
  @aggregate Demo.decls _ Demo.scripted Demo.rules
    (Some (Demo.batch [Demo.e1; Demo.e2])) (Demo.start [])
  = Ok {| Err := Some "No aggregation rules"%string |} (Demo.start []).
Proof.
  split; [reflexivity|].
  exact (proj1 (@aggregate_without_rules Demo.decls _ Demo.scripted Demo.rules
                  (Demo.batch [Demo.e1; Demo.e2]) (Demo.start []) 0%nat
                  eq_refl)).
Defined.

(** Rules 0, 2, 1 and an element that rules 2 and 1 handle: rule 2 claims
    it and rule 1 is not evaluated. *)
Lemma first_matching_rule_claims_witness :
  good (Demo.start []) ∧
  ∃ w',
    @range_Rules Demo.decls _ Demo.scripted Demo.rules Demo.e1 [0; 2; 1]%nat
      (Demo.start [])
    = Ok tt w' ∧
    evaluated w' = [(0%nat, Demo.e1); (0%nat, Demo.e1);
                    (2%nat, Demo.e1); (2%nat, Demo.e1)] ∧
    (∃ a', heap w' !! 0%nat = Some a' ∧ Rule a' = 2%nat).
Proof.
  split; [apply init_good|].
  destruct (@first_matching_rule_claims Demo.decls _ Demo.scripted Demo.rules
              Demo.e1 [0; 2; 1]%nat (Demo.start []) (init_good _ _))
    as (w' & Hrun & _).
  exists w'. split; [exact Hrun|].
  vm_compute in Hrun. injection Hrun as <-.
  split; [reflexivity|]. eexists. split; reflexivity.
Defined.

(** The instance is sent after the arrivals; four more calls of its methods
    leave it sent and make no call to the receiver. *)
Lemma dispatch_state_only_advances_witness :
  good (Demo.world_after Demo.arrivals (Demo.start [])) ∧
  heap (Demo.world_after Demo.arrivals (Demo.start [])) !! 0%nat
  = Some (Demo.instance 2 [Demo.e1; Demo.e2] aggSent) ∧
  ∃ w' a',
    @call_methods Demo.decls _ Demo.scripted 0
      Demo.calls
      (Demo.world_after Demo.arrivals (Demo.start []))
    = Ok tt w' ∧
    heap w' !! 0%nat = Some a' ∧ state a' = aggSent ∧
    received w' = received (Demo.world_after Demo.arrivals (Demo.start [])).
Proof.
  assert (heap (Demo.world_after Demo.arrivals (Demo.start [])) !! 0%nat
          = Some (Demo.instance 2 [Demo.e1; Demo.e2] aggSent)) as Hl
    by (vm_compute; reflexivity).
  split; [exact (reachable_good _ arrivals_reachable)|].
  split; [exact Hl|].
  destruct (@dispatch_state_only_advances Demo.decls _ Demo.scripted Demo.rules
              0 _ _ (reachable_good _ arrivals_reachable) Hl)
    as (_ & _ & _ & _ & _ & Hsent).
  destruct (Hsent eq_refl) as [Hcalls _].
  exact (Hcalls Demo.calls).
Defined.

(** The receiver answers an error that is not retryable: one call, and the
    instance is sent. *)
Lemma SendNotification_unsent_witness :
  heap (Demo.holding [Some false] [Demo.e1] aggUnsent) !! 0%nat
  = Some (Demo.instance 1 [Demo.e1] aggUnsent) ∧
  state (Demo.instance 1 [Demo.e1] aggUnsent) = aggUnsent ∧
  ∃ w',
    @SendNotification Demo.decls _ Demo.scripted 0
      (Demo.holding [Some false] [Demo.e1] aggUnsent)
    = Ok tt w' ∧
    received w'
    = [(0%nat, @Build_EventSummary Demo.decls 1 [Demo.e1])] ∧
    heap w' = [Demo.instance 1 [Demo.e1] aggSent].
Proof.
  split; [reflexivity|]. split; [reflexivity|].
  destruct (@SendNotification_unsent Demo.decls _ Demo.scripted Demo.rules 0
              (Demo.holding [Some false] [Demo.e1] aggUnsent)
              (Demo.instance 1 [Demo.e1] aggUnsent) eq_refl eq_refl)
    as (w' & s' & err & Hrecv & Hrun & Hrec & _ & _ & Hh & _).
  exists w'. split; [exact Hrun|]. split; [exact Hrec|].
  rewrite Hh. injection Hrecv as _ <-. reflexivity.
Defined.

(** After the arrivals: one fingerprint, one instance, both events in it. *)
Lemma one_instance_per_fingerprint_witness :
  @reachable Demo.decls _ Demo.scripted Demo.rules
    (Demo.world_after Demo.arrivals (Demo.start [])) ∧
  size (Aggregates (agg (Demo.world_after Demo.arrivals (Demo.start []))))
  = length (heap (Demo.world_after Demo.arrivals (Demo.start []))) ∧
  (∀ l1 l2 e1 e2,
     (l1, e1) ∈ ingested (Demo.world_after Demo.arrivals (Demo.start [])) →
     (l2, e2) ∈ ingested (Demo.world_after Demo.arrivals (Demo.start [])) →
     Demo.ev_fp e1 = Demo.ev_fp e2 → l1 = l2).
Proof.
  split; [exact arrivals_reachable|].
  destruct (@one_instance_per_fingerprint Demo.decls _ Demo.scripted Demo.rules
              _ arrivals_reachable)
    as (_ & _ & Hsize & Hpairs & _).
  split; [exact Hsize|exact Hpairs].
Defined.

(** The instance was created under rule 2; rule 1 claims a later element
    with the same fingerprint, and the instance still has rule 2. *)
Lemma Rule_is_set_at_creation_only_witness :
  good (Demo.world_after Demo.arrivals (Demo.start [])) ∧
  ∃ w' a',
    @claim Demo.decls _ Demo.scripted 1 Demo.e4
      (Demo.world_after Demo.arrivals (Demo.start []))
    = Ok tt w' ∧
    heap w' !! 0%nat = Some a' ∧
    Events a' = [Demo.e1; Demo.e2; Demo.e4] ∧ Rule a' = 2%nat.
Proof.
  split; [exact (reachable_good _ arrivals_reachable)|].
  destruct (@Rule_is_set_at_creation_only Demo.decls _ Demo.scripted Demo.rules
              _ (reachable_good _ arrivals_reachable))
    as [_ Hkeep].
  assert (heap (Demo.world_after Demo.arrivals (Demo.start [])) !! 0%nat
          = Some (Demo.instance 2 [Demo.e1; Demo.e2] aggSent)) as Hl
    by (vm_compute; reflexivity).
  destruct (Hkeep 0%nat _ Hl) as (_ & _ & _ & Hclaim).
  apply (Hclaim 1%nat Demo.e4). vm_compute. reflexivity.
Defined.

(** After the sweep the instance holds no event, and it is sent. *)
Lemma empty_instance_is_sent_witness :
  @reachable Demo.decls _ Demo.scripted Demo.rules
    (Demo.world_after Demo.swept (Demo.start [])) ∧
  heap (Demo.world_after Demo.swept (Demo.start [])) !! 0%nat
  = Some (Demo.instance 2 [] aggSent) ∧
  (Events (Demo.instance 2 [] aggSent) = [] →
   state (Demo.instance 2 [] aggSent) = aggSent).
Proof.
  assert (heap (Demo.world_after Demo.swept (Demo.start [])) !! 0%nat
          = Some (Demo.instance 2 [] aggSent)) as Hl
    by (vm_compute; reflexivity).
  split; [exact swept_reachable|]. split; [exact Hl|].
  exact (proj1 (@empty_instance_is_sent Demo.decls _ Demo.scripted Demo.rules
                  _ 0%nat _ swept_reachable Hl)).
Defined.

(** ** More properties of the code *)

Section more_properties.
Context `{D : Declarations} {S : Type}.
Context `{SR : !SummaryReceiver S} `{RS : !RuleStore}.
Implicit Types (w : @World D S) (a : @AggregationInstance D) (r l : nat).

(** *** More on the methods *)

Lemma set_Events_same a : set_Events (Events a) a = a.
Proof. by destruct a. Qed.

Lemma kept_sublist t (evs : list Event) : kept t evs `sublist_of` evs.
Proof.
  induction evs as [|e evs IH]; simpl; [done|].
  destruct (Before t (CreatedAt e)); by constructor.
Qed.

Lemma kept_kept t1 t2 (evs : list Event) :
  t1 ≤ t2 → kept t2 (kept t1 evs) = kept t2 evs.
Proof.
  intros Ht. induction evs as [|e evs IH]; simpl; [done|].
  unfold Before in *.
  destruct (t1 <? CreatedAt e) eqn:H1; simpl.
  - by rewrite IH.
  - rewrite IH. destruct (t2 <? CreatedAt e) eqn:H2; [|done].
    apply Z.ltb_lt in H2. apply Z.ltb_ge in H1. lia.
Qed.

Lemma Tidy_invalid r w : heap w !! r = None → Tidy r w = Panic.
Proof. intros Hr. unfold Tidy, bind, println, load. simpl. by rewrite Hr. Qed.

(** What [Tidy] leaves of [a] when the clock shows [t]. *)
Lemma Tidy_frame r w a :
  heap w !! r = Some a →
  ∃ w' a',
    Tidy r w = Ok tt w' ∧
    agg w' = agg w ∧ heap w' = <[r := a']> (heap w) ∧
    sink w' = sink w ∧ received w' = received w ∧
    ingested w' = ingested w ∧ clock w' = clock w ∧
    Rule a' = Rule a ∧
    (Events a = [] ∧ a' = a ∧ reads w' = reads w ∨
     Events a ≠ [] ∧ a' = tidied (clock w (reads w)) a ∧
     reads w' = Datatypes.S (reads w)).
Proof.
  intros Hr. destruct (decide (Events a = [])) as [He|He].
  - rewrite (Tidy_run_empty r w a Hr He). eexists _, a.
    split; [done|]. simpl. rewrite list_insert_id by done.
    repeat split; try done. by left.
  - rewrite (Tidy_run_sweep r w a Hr He). eexists _, _.
    split; [done|]. simpl. repeat split; try done. by right.
Qed.


(** X1. [Ingest] appends: calling it for the events of a list, one after
    the other, leaves the instance with its former events followed by the
    list, repeated events included; the rule, the expiry and the state of
    the instance, the table, the receiver and the calls made to it are
    unchanged, and every append is recorded for that instance. *)
Theorem Ingest_appends_in_order r w a (es : list Event) :
  heap w !! r = Some a →
  ∃ w',
    call_methods r (CallIngest <$> es) w = Ok tt w' ∧
    heap w' = <[r := set_Events (Events a ++ es) a]> (heap w) ∧
    agg w' = agg w ∧ sink w' = sink w ∧ received w' = received w ∧
    ingested w' = ingested w ++ (pair r <$> es).
Proof.
  revert w a. induction es as [|e es IH]; intros w a Hr.
  - exists w. split; [done|].
    rewrite !app_nil_r, set_Events_same, list_insert_id by done. done.
  - rewrite fmap_cons.
    change (call_methods r (CallIngest e :: (CallIngest <$> es)) w)
      with (bind (Ingest r e) (λ _, call_methods r (CallIngest <$> es)) w).
    unfold bind. rewrite (Ingest_run r e w a Hr).
    set (a1 := set_Events (Events a ++ [e]) a).
    set (w1 := with_ingested _ _).
    destruct (IH w1 a1) as (w' & -> & Hh & Ha & Hs & Hrec & Hin).
    { subst w1; simpl. apply list_lookup_insert_eq.
      by eapply lookup_lt_Some. }
    exists w'. split; [done|]. split.
    { rewrite Hh. subst w1 a1; simpl.
      rewrite list_insert_insert_eq. unfold set_Events; simpl.
      by rewrite <- app_assoc. }
    split; [by rewrite Ha|]. split; [by rewrite Hs|].
    split; [by rewrite Hrec|].
    rewrite Hin. subst w1; simpl. by rewrite <- app_assoc.
Qed.

(** X2. Two sweeps of an instance in a row, with a clock that does not
    go back between its two readings, leave what one sweep at the later
    reading leaves: the events created after it, the state [aggSent] if a
    non-empty sequence was emptied, and the former state if events remain.
    No call is made to the receiver. *)
Theorem Tidy_twice r w a :
  heap w !! r = Some a →
  clock w (reads w) ≤ clock w (Datatypes.S (reads w)) →
  ∃ w' a',
    call_methods r [CallTidy; CallTidy] w = Ok tt w' ∧
    heap w' = <[r := a']> (heap w) ∧
    Events a'
    = List.filter
        (λ e, Before (clock w (Datatypes.S (reads w))) (CreatedAt e))
        (Events a) ∧
    (Events a ≠ [] → Events a' = [] → state a' = aggSent) ∧
    (Events a' ≠ [] → state a' = state a) ∧
    Rule a' = Rule a ∧
    agg w' = agg w ∧ sink w' = sink w ∧ received w' = received w.
Proof.
  intros Hr Hle. simpl. unfold bind.
  destruct (Tidy_frame r w a Hr)
    as (w1 & a1 & -> & Ha1 & Hh1 & Hs1 & Hr1 & _ & Hc1 & HR1 & Hcase1).
  assert (heap w1 !! r = Some a1) as Hl1.
  { rewrite Hh1. apply list_lookup_insert_eq. by eapply lookup_lt_Some. }
  destruct (Tidy_frame r w1 a1 Hl1)
    as (w2 & a2 & -> & Ha2 & Hh2 & Hs2 & Hr2 & _ & _ & HR2 & Hcase2).
  exists w2, a2. split; [done|].
  split; [by rewrite Hh2, Hh1, list_insert_insert_eq|].
  fold (kept (clock w (Datatypes.S (reads w))) (Events a)).
  assert (Events a2 = kept (clock w (Datatypes.S (reads w))) (Events a) ∧
          (Events a ≠ [] → Events a2 = [] → state a2 = aggSent) ∧
          (Events a2 ≠ [] → state a2 = state a)) as (? & ? & ?).
  { destruct Hcase1 as [(He & -> & _)|(He & -> & Hrd)].
    - destruct Hcase2 as [(_ & -> & _)|(He' & _)]; [|done].
      rewrite He. done.
    - destruct Hcase2 as [(He2 & -> & _)|(He2 & -> & _)]; simpl in *.
      + rewrite He2. split.
        * symmetry. rewrite <- (kept_kept _ _ _ Hle), He2. done.
        * done.
      + rewrite Hc1, Hrd, kept_kept by done. split; [done|].
        destruct (kept (clock w (reads w)) (Events a)) eqn:Hk1; [done|].
        split.
        * by intros _ ->.
        * by destruct (kept (clock w (Datatypes.S (reads w))) (Events a)). }
  split; [done|]. split; [done|]. split; [done|].
  split; [congruence|]. split; [congruence|]. split; congruence.
Qed.


(** *** The sweep *)

Lemma Tidy_steady r w w' : steady w → Tidy r w = Ok tt w' → steady w'.
Proof.
  intros Hst Hrun. destruct (heap w !! r) as [a|] eqn:Hr.
  - destruct (Tidy_frame r w a Hr) as (w1 & a1 & Hrun1 & _ & _ & _ & _ & _ & Hc & _).
    rewrite Hrun in Hrun1. injection Hrun1 as <-.
    intros n. by rewrite Hc.
  - by rewrite Tidy_invalid in Hrun.
Qed.

Lemma Tidy_Tidy_comm r1 r2 w :
  steady w →
  bind (Tidy r1) (λ _, Tidy r2) w = bind (Tidy r2) (λ _, Tidy r1) w.
Proof.
  intros Hst. destruct (decide (r1 = r2)) as [->|Hne]; [done|].
  unfold bind.
  destruct (heap w !! r1) as [a1|] eqn:H1; destruct (heap w !! r2) as [a2|] eqn:H2.
  - pose proof (lookup_lt_Some _ _ _ H1) as Hlt1.
    pose proof (lookup_lt_Some _ _ _ H2) as Hlt2.
    assert (clock w (Datatypes.S (reads w)) = clock w (reads w)) as Hck
      by (by rewrite (Hst (Datatypes.S (reads w))), (Hst (reads w))).
    destruct (decide (Events a1 = [])) as [E1|E1];
      destruct (decide (Events a2 = [])) as [E2|E2].
    + rewrite (Tidy_run_empty r1 w a1 H1 E1), (Tidy_run_empty r2 w a2 H2 E2).
      rewrite (Tidy_run_empty r2 _ a2), (Tidy_run_empty r1 _ a1) by done.
      done.
    + rewrite (Tidy_run_empty r1 w a1 H1 E1), (Tidy_run_sweep r2 w a2 H2 E2).
      rewrite (Tidy_run_sweep r2 _ a2) by done.
      rewrite (Tidy_run_empty r1 _ a1);
        [done|by simpl; rewrite list_lookup_insert_ne|done].
    + rewrite (Tidy_run_sweep r1 w a1 H1 E1), (Tidy_run_empty r2 w a2 H2 E2).
      rewrite (Tidy_run_sweep r1 _ a1) by done.
      rewrite (Tidy_run_empty r2 _ a2);
        [done|by simpl; rewrite list_lookup_insert_ne|done].
    + rewrite (Tidy_run_sweep r1 w a1 H1 E1), (Tidy_run_sweep r2 w a2 H2 E2).
      rewrite (Tidy_run_sweep r2 _ a2);
        [|by simpl; rewrite list_lookup_insert_ne|done].
      rewrite (Tidy_run_sweep r1 _ a1);
        [|by simpl; rewrite list_lookup_insert_ne|done].
      unfold with_heap, with_reads, with_oplog; simpl.
      rewrite Hck. by rewrite list_insert_insert_ne.
  - destruct (Tidy_frame r1 w a1 H1) as (w1 & b1 & -> & _ & Hh & _).
    rewrite (Tidy_invalid r2 w H2). apply Tidy_invalid.
    rewrite Hh, list_lookup_insert_ne; done.
  - destruct (Tidy_frame r2 w a2 H2) as (w1 & b1 & -> & _ & Hh & _).
    rewrite (Tidy_invalid r1 w H1). symmetry. apply Tidy_invalid.
    rewrite Hh, list_lookup_insert_ne; done.
  - by rewrite !Tidy_invalid.
Qed.

(** X3. While the clock shows one time, the order in which a sweep
    visits the table does not matter: two orders that are permutations of
    each other give the same outcome, be it the same world or the same
    failure. *)
Theorem sweep_order_is_immaterial (order1 order2 : list (Z * nat)) w :
  steady w →
  order1 ≡ₚ order2 →
  range_Aggregates order1 w = range_Aggregates order2 w.
Proof.
  intros Hst Hp. revert w Hst.
  induction Hp as [|[fp l] o1 o2 Hp IH|[fp1 l1] [fp2 l2] o|o1 o2 o3 _ IH1 _ IH2];
    intros w Hst.
  - done.
  - simpl. unfold bind. destruct (Tidy l w) as [[] w1|] eqn:Hrun; [|done].
    apply IH. by eapply Tidy_steady.
  - pose proof (Tidy_Tidy_comm l2 l1 w Hst) as Hc. unfold bind in Hc.
    simpl. unfold bind.
    destruct (Tidy l2 w) as [[] wa|]; destruct (Tidy l1 w) as [[] wb|].
    + by rewrite Hc.
    + by rewrite Hc.
    + by rewrite <- Hc.
    + done.
  - by rewrite IH1, IH2.
Qed.

Lemma range_Aggregates_frame (order : list (Z * nat)) w :
  (∀ c, c ∈ order → (c.2 < length (heap w))%nat) →
  ∃ w',
    range_Aggregates order w = Ok tt w' ∧
    agg w' = agg w ∧ sink w' = sink w ∧ received w' = received w ∧
    ingested w' = ingested w ∧
    length (heap w') = length (heap w) ∧
    ∀ l a, heap w !! l = Some a →
           ∃ a', heap w' !! l = Some a' ∧ Rule a' = Rule a ∧
                 Events a' `sublist_of` Events a ∧
                 state_le (state a) (state a') ∧
                 (l ∉ order.*2 → a' = a).
Proof.
  revert w. induction order as [|[fp r] order IH]; intros w Hv.
  - exists w. repeat split; try done. intros l a Hl. exists a.
    repeat split; try done. apply state_le_refl.
  - simpl. unfold bind.
    destruct (lookup_lt_is_Some_2 (heap w) r) as [b Hb];
      [apply (Hv (fp, r)), list_elem_of_here|].
    destruct (Tidy_frame r w b Hb)
      as (w1 & b1 & -> & Ha1 & Hh1 & Hs1 & Hr1 & Hi1 & _ & HR1 & Hcase).
    assert (length (heap w1) = length (heap w)) as Hlen1
      by (by rewrite Hh1, length_insert).
    destruct (IH w1) as (w2 & -> & Ha2 & Hs2 & Hr2 & Hi2 & Hlen2 & Hinst).
    { intros c Hc. rewrite Hlen1. by apply Hv, list_elem_of_further. }
    exists w2. split; [done|]. split; [congruence|]. split; [congruence|].
    split; [congruence|]. split; [congruence|]. split; [congruence|].
    intros l a Hl. destruct (decide (l = r)) as [->|Hne].
    + assert (a = b) as -> by congruence.
      destruct (Hinst r b1) as (a' & Hl' & HR' & Hsub' & Hst' & _).
      { rewrite Hh1. apply list_lookup_insert_eq. by eapply lookup_lt_Some. }
      exists a'. split; [done|]. split; [congruence|].
      assert (Events b1 `sublist_of` Events b ∧ state_le (state b) (state b1))
        as [Hsub1 Hst1].
      { destruct Hcase as [(_ & -> & _)|(_ & -> & _)].
        - split; [done|apply state_le_refl].
        - split; [apply kept_sublist|]. simpl.
          destruct (kept _ _); [apply state_le_to_sent|apply state_le_refl]. }
      split; [by etrans|]. split; [by eapply state_le_trans|].
      intros Hnot. exfalso. apply Hnot. simpl. apply list_elem_of_here.
    + destruct (Hinst l a) as (a' & Hl' & HR' & Hsub' & Hst' & Hsame).
      { by rewrite Hh1, list_lookup_insert_ne. }
      exists a'. repeat split; try done.
      intros Hnot. apply Hsame. intros Hin. apply Hnot. simpl.
      by apply list_elem_of_further.
Qed.


(** *** The calls that [claim] makes *)

Lemma notified_spec r a w :
  heap w !! r = Some a → state a = aggUnsent →
  ∃ err,
    agg (notified r a w) = agg w ∧
    heap (notified r a w) = <[r := set_state (state_after err) a]> (heap w) ∧
    received (notified r a w) = received w ++ [(r, summary_of a)] ∧
    ingested (notified r a w) = ingested w.
Proof.
  intros Hr Hs. unfold notified.
  destruct (Receive (sink w) (summary_of a)) as [s' err]. exists err.
  assert (set_state aggUnsent a = a) as Hid
    by (destruct a; simpl in *; by subst).
  destruct err as [x|]; simpl; [destruct (Retryable x); simpl|]; try done.
  by rewrite Hid, list_insert_id.
Qed.

Lemma claim_received r e w w' l a' :
  good w →
  claim r e w = Ok tt w' →
  Aggregates (agg w') !! Fingerprint e = Some l →
  heap w' !! l = Some a' →
  match Aggregates (agg w) !! Fingerprint e with
  | Some l0 =>
      ∀ a, heap w !! l0 = Some a →
           received w'
           = received w ++
             match state a with
             | aggUnsent => [(l, summary_of a')]
             | aggSent => []
             end
  | None => received w' = received w ++ [(l, summary_of a')]
  end.
Proof.
  intros Hg. unfold claim, bind, get_agg.
  destruct (Aggregates (agg w) !! Fingerprint e) as [l0|] eqn:Hfp; simpl.
  - intros Hrun Hl Ha' a Ha. rewrite (Ingest_run l0 e w a Ha) in Hrun.
    set (a1 := set_Events (Events a ++ [e]) a) in *.
    set (w1 := with_ingested _ _) in *.
    assert (heap w1 !! l0 = Some a1) as Hl1.
    { subst w1; simpl. apply list_lookup_insert_eq. by eapply lookup_lt_Some. }
    destruct (state a) eqn:Hs.
    + rewrite (SendNotification_run_unsent l0 w1 a1 Hl1 Hs) in Hrun.
      injection Hrun as <-.
      destruct (notified_spec l0 a1 w1 Hl1 Hs) as (err & Hag & Hh & Hrec & _).
      rewrite Hag in Hl. simpl in Hl. rewrite Hfp in Hl. injection Hl as <-.
      rewrite Hh, list_lookup_insert_eq in Ha' by (by eapply lookup_lt_Some).
      injection Ha' as <-. by rewrite Hrec.
    + rewrite (SendNotification_run_sent l0 w1 a1 Hl1 Hs) in Hrun.
      injection Hrun as <-. simpl. by rewrite app_nil_r.
  - unfold alloc, set_Aggregates, ret; simpl.
    set (n := length (heap w)).
    set (new := {| Rule := r; Events := []; EndsAt := zeroTime;
                   state := aggUnsent |}).
    set (w0 := with_agg _ _).
    assert (heap w0 !! n = Some new) as Hl0.
    { subst w0; simpl. by apply list_lookup_middle. }
    rewrite (Ingest_run n e w0 new Hl0).
    set (a1 := set_Events (Events new ++ [e]) new).
    set (w1 := with_ingested _ _).
    assert (heap w1 !! n = Some a1) as Hl1.
    { subst w1; simpl. apply list_lookup_insert_eq. by eapply lookup_lt_Some. }
    rewrite (SendNotification_run_unsent n w1 a1 Hl1 eq_refl).
    intros [= <-] Hl Ha'.
    destruct (notified_spec n a1 w1 Hl1 eq_refl) as (err & Hag & Hh & Hrec & _).
    rewrite Hag in Hl. simpl in Hl. rewrite lookup_insert_eq in Hl.
    injection Hl as <-.
    rewrite Hh, list_lookup_insert_eq in Ha' by (by eapply lookup_lt_Some).
    injection Ha' as <-. by rewrite Hrec.
Qed.

(** *** Invariants of the loop, in general *)


Section invariant.
Variable P : @World D S → Prop.
Hypothesis P_frame : frame_closed P.
Hypothesis P_claim :
  ∀ r e w w', good w → P w → claim r e w = Ok tt w' → P w'.
Hypothesis P_Tidy :
  ∀ r w w', good w → P w → Tidy r w = Ok tt w' → P w'.

Lemma P_checked_all rs e w : P w → P (checked_all rs e w).
Proof.
  destruct (checked_all_frame rs e w) as (Ha & ? & ? & ? & ?).
  apply P_frame; by rewrite ?Ha.
Qed.

Lemma range_Rules_invariant e rules w w' :
  good w → P w → range_Rules e rules w = Ok tt w' → P w'.
Proof.
  intros Hg HP. destruct (first_match_or_none rules e)
    as [Hno|(before & r & after & Hm)].
  - rewrite range_Rules_no_match by done. intros [= <-].
    by apply P_checked_all.
  - rewrite (range_Rules_match _ _ _ _ _ _ Hm).
    apply P_claim; [by apply good_checked_all|by apply P_checked_all].
Qed.

Lemma range_Events_invariant evs w w' :
  good w → P w → range_Events evs w = Ok tt w' → P w'.
Proof.
  revert w. induction evs as [|e evs IH]; intros w Hg HP.
  - by intros [= <-].
  - simpl. unfold bind, get_agg.
    destruct (range_Rules_sound e (Rules (agg w)) w Hg)
      as (w1 & Hrun & Hg1 & _). rewrite Hrun.
    apply IH; [done|]. exact (range_Rules_invariant _ _ _ _ Hg HP Hrun).
Qed.

Lemma range_Aggregates_invariant (order : list (Z * nat)) w w' :
  good w → P w → range_Aggregates order w = Ok tt w' → P w'.
Proof.
  revert w. induction order as [|[fp l] order IH]; intros w Hg HP.
  - by intros [= <-].
  - simpl. unfold bind. destruct (Tidy l w) as [[] w1|] eqn:Hrun; [|done].
    apply IH; [|by eapply P_Tidy].
    destruct (heap w !! l) as [a|] eqn:Hl.
    + destruct (Tidy_sound l w Hg) as (w1' & Hrun' & Hg1 & _);
        [by eapply lookup_lt_Some|].
      congruence.
    + by rewrite Tidy_invalid in Hrun.
Qed.

Lemma select_case_invariant sel closed closed' w w' :
  good w → P w → select_case sel closed w = Ok closed' w' → P w'.
Proof.
  intros Hg HP. destruct sel as [[rq|]|[rq|]|order]; simpl; unfold bind.
  - unfold aggregate, bind, get_agg.
    destruct (length (Rules (agg w)) =? 0)%nat; simpl.
    + by intros [= _ <-].
    + destruct (range_Events _ _) as [[] w1|] eqn:Hrun; [|done].
      intros [= _ <-].
      refine (range_Events_invariant _ _ _ _ _ Hrun).
      * by apply (good_same w).
      * by apply (P_frame w).
  - by rewrite aggregate_nil.
  - rewrite replaceRules_run. intros [= _ <-]. by apply (P_frame w).
  - done.
  - destruct (range_Aggregates order w) as [[] w1|] eqn:Hrun; [|done].
    intros [= _ <-]. exact (range_Aggregates_invariant _ _ _ Hg HP Hrun).
Qed.

Lemma steps_invariant w w' : good w → P w → steps w w' → P w'.
Proof.
  intros Hg HP Hs. induction Hs as [|w sel c c' w1 w2 Hsel Hrun _ IH]; [done|].
  destruct (select_case_sound _ _ _ _ _ Hg Hsel Hrun) as (Hg1 & _).
  apply IH; [done|]. exact (select_case_invariant _ _ _ _ _ Hg HP Hrun).
Qed.

End invariant.


(** *** What instances hold *)

Lemma events_ingested_snoc l l0 (e : Event) w w' :
  ingested w' = ingested w ++ [(l0, e)] →
  events_ingested l w'
  = events_ingested l w ++ (if decide (l0 = l) then [e] else []).
Proof.
  intros Hi. unfold events_ingested. rewrite Hi, filter_app, fmap_app.
  f_equal. rewrite filter_cons. simpl. by case_decide.
Qed.

Lemma stored_in_order_frame : frame_closed (@stored_in_order D S).
Proof.
  intros w w' _ Hh _ _ Hi HP l a. unfold events_ingested.
  rewrite Hh, Hi. apply HP.
Qed.

Lemma stored_in_order_claim r e w w' :
  good w → stored_in_order w → claim r e w = Ok tt w' → stored_in_order w'.
Proof.
  intros Hg HP Hrun.
  destruct (claim_spec r e w Hg)
    as (w1 & l & a' & Hrun1 & _ & _ & _ & _ & Hin & _ & Hl & Hcase).
  rewrite Hrun in Hrun1. injection Hrun1 as <-.
  intros l' b Hb. rewrite (events_ingested_snoc l' l e w w' Hin).
  destruct (Aggregates (agg w) !! Fingerprint e) as [l0|].
  - destruct Hcase as (-> & _ & _ & a & Ha & (_ & Hh & _) & Hev).
    rewrite Hh in Hb. case_decide as Hll.
    + subst l'. rewrite list_lookup_insert_eq in Hb
        by (by eapply lookup_lt_Some).
      injection Hb as <-. rewrite Hev. apply sublist_app; [by apply HP|done].
    + rewrite list_lookup_insert_ne, app_nil_r in * by done. by apply HP.
  - destruct Hcase as (-> & _ & Hh & _ & Hev).
    rewrite Hh in Hb. apply lookup_app_Some in Hb as [Hb|[Hge Hb]].
    + apply sublist_inserts_r. by apply HP.
    + apply list_lookup_singleton_Some in Hb as [Heq <-].
      assert (l' = length (heap w)) as -> by lia.
      rewrite decide_True by done. rewrite Hev.
      by apply sublist_inserts_l.
Qed.

Lemma stored_in_order_Tidy r w w' :
  good w → stored_in_order w → Tidy r w = Ok tt w' → stored_in_order w'.
Proof.
  intros _ HP Hrun. destruct (heap w !! r) as [a|] eqn:Hr;
    [|by rewrite Tidy_invalid in Hrun].
  destruct (Tidy_frame r w a Hr)
    as (w1 & a1 & Hrun1 & _ & Hh & _ & _ & Hi & _ & _ & Hcase).
  rewrite Hrun in Hrun1. injection Hrun1 as <-.
  intros l b. unfold events_ingested. rewrite Hh, Hi.
  destruct (decide (l = r)) as [->|Hne].
  - rewrite list_lookup_insert_eq by (by eapply lookup_lt_Some).
    intros [= <-]. specialize (HP r a Hr).
    destruct Hcase as [(_ & -> & _)|(_ & -> & _)]; [done|].
    simpl. etrans; [apply kept_sublist|done].
  - rewrite list_lookup_insert_ne by done. apply HP.
Qed.

(** X9. In every world that the loop reaches, the events that an
    instance holds are events that were appended to it, in the order of
    their arrival; each of them has the fingerprint under which the table
    holds the instance, so all events of an instance share one
    fingerprint. *)
Theorem instance_holds_its_own_events w l a :
  reachable w →
  heap w !! l = Some a →
  Events a `sublist_of` events_ingested l w ∧
  (∀ e, e ∈ Events a → Aggregates (agg w) !! Fingerprint e = Some l) ∧
  (∀ e1 e2, e1 ∈ Events a → e2 ∈ Events a → Fingerprint e1 = Fingerprint e2).
Proof.
  intros Hreach Hl. pose proof (reachable_good w Hreach) as Hg.
  destruct Hreach as (s & clk & Hs).
  assert (stored_in_order w) as HP.
  { refine (steps_invariant stored_in_order stored_in_order_frame
              stored_in_order_claim stored_in_order_Tidy _ _
              (init_good s clk) _ Hs).
    intros l' b. simpl. by rewrite lookup_nil. }
  assert (∀ e, e ∈ Events a → Aggregates (agg w) !! Fingerprint e = Some l)
    as Hfp.
  { intros e He. apply (good_routed w Hg).
    pose proof (elem_of_sublist _ _ _ He (HP l a Hl)) as Hin.
    unfold events_ingested in Hin.
    apply list_elem_of_fmap in Hin as ([l' e'] & -> & Hin).
    apply list_elem_of_filter in Hin as [Heq Hin]. simpl in *. by subst l'. }
  split; [by apply HP|]. split; [done|].
  intros e1 e2 H1%Hfp H2%Hfp. by eapply (good_inj w Hg).
Qed.

(** *** What the receiver has been sent *)

Lemma summaries_sound_frame : frame_closed (@summaries_sound D S).
Proof.
  intros w w' _ Hh _ Hr _ [H1 H2]. unfold summaries_sound.
  rewrite Hh, Hr. done.
Qed.

Lemma summaries_sound_Tidy r w w' :
  good w → summaries_sound w → Tidy r w = Ok tt w' → summaries_sound w'.
Proof.
  intros _ [H1 H2] Hrun. destruct (heap w !! r) as [a|] eqn:Hr;
    [|by rewrite Tidy_invalid in Hrun].
  destruct (Tidy_frame r w a Hr)
    as (w1 & a1 & Hrun1 & _ & Hh & _ & Hrec & _ & _ & HR & _).
  rewrite Hrun in Hrun1. injection Hrun1 as <-.
  split; rewrite Hh, Hrec.
  - intros l sm Hin. rewrite length_insert. eauto.
  - intros l b. destruct (decide (l = r)) as [->|Hne].
    + rewrite list_lookup_insert_eq by (by eapply lookup_lt_Some).
      intros [= <-]. rewrite HR. by apply H2.
    + rewrite list_lookup_insert_ne by done. apply H2.
Qed.

Lemma summaries_sound_claim r e w w' :
  good w → summaries_sound w → claim r e w = Ok tt w' → summaries_sound w'.
Proof.
  intros Hg [H1 H2] Hrun.
  destruct (claim_spec r e w Hg)
    as (w1 & l & a' & Hrun1 & _ & _ & _ & _ & _ & Hfp & Hl & Hcase).
  rewrite Hrun in Hrun1. injection Hrun1 as <-.
  pose proof (claim_received r e w w' l a' Hg Hrun Hfp Hl) as Hrec.
  assert (summary_Events (summary_of a') ≠ []) as Hne.
  { simpl. destruct (Aggregates (agg w) !! Fingerprint e).
    - destruct Hcase as (_ & _ & _ & a & _ & _ & ->). by destruct (Events a).
    - by destruct Hcase as (_ & _ & _ & _ & ->). }
  destruct (Aggregates (agg w) !! Fingerprint e) as [l0|].
  - destruct Hcase as (-> & _ & Hlen & a & Ha & (_ & Hh & HR & _) & Hev).
    specialize (Hrec a Ha).
    assert (∃ calls, received w' = received w ++ calls ∧
                     ∀ c, c ∈ calls → c = (l0, summary_of a'))
      as (calls & Hrec' & Hcalls).
    { destruct (state a); eexists; (split; [done|]); intros c Hc.
      - by apply list_elem_of_singleton in Hc.
      - by apply elem_of_nil in Hc. }
    split.
    + intros l sm. rewrite Hrec', elem_of_app, Hlen. intros [Hin|Hin]; [eauto|].
      apply Hcalls in Hin as [= -> _]. by eapply lookup_lt_Some.
    + intros l b. rewrite Hh, Hrec'. destruct (decide (l = l0)) as [->|Hll].
      * rewrite list_lookup_insert_eq by (by eapply lookup_lt_Some).
        intros [= <-]. destruct (H2 l0 a Ha) as [(sm & Hsm) Hall]. split.
        { exists sm. apply elem_of_app. by left. }
        intros sm'. rewrite elem_of_app. intros [Hin|Hin].
        -- rewrite HR. by apply Hall.
        -- apply Hcalls in Hin as [= ->]. done.
      * rewrite list_lookup_insert_ne by done. intros Hb.
        destruct (H2 l b Hb) as [(sm & Hsm) Hall]. split.
        { exists sm. apply elem_of_app. by left. }
        intros sm'. rewrite elem_of_app. intros [Hin|Hin]; [by apply Hall|].
        apply Hcalls in Hin as [= -> _]. done.
  - destruct Hcase as (-> & _ & Hh & HR & Hev). split.
    + intros l sm. rewrite Hrec, Hh, elem_of_app, length_app. simpl.
      intros [Hin%H1|Hin]; [lia|].
      apply list_elem_of_singleton in Hin as [= -> _]. lia.
    + intros l b. rewrite Hh, Hrec. intros Hb.
      apply lookup_app_Some in Hb as [Hb|[Hge Hb]].
      * destruct (H2 l b Hb) as [(sm & Hsm) Hall]. split.
        { exists sm. apply elem_of_app. by left. }
        intros sm'. rewrite elem_of_app. intros [Hin|Hin]; [by apply Hall|].
        apply list_elem_of_singleton in Hin as [= -> _].
        apply lookup_lt_Some in Hb. lia.
      * apply list_lookup_singleton_Some in Hb as [Heq <-].
        assert (l = length (heap w)) as -> by lia. split.
        { exists (summary_of a'). apply elem_of_app. right.
          apply list_elem_of_here. }
        intros sm'. rewrite elem_of_app. intros [Hin%H1|Hin]; [lia|].
        apply list_elem_of_singleton in Hin as [= ->]. done.
Qed.

(** X10. In every world that the loop reaches, every instance has been
    offered to the receiver at least once, and every call ever made was
    made for an allocated instance, with the rule of that instance and at
    least one event. *)
Theorem every_instance_was_offered w :
  reachable w →
  (∀ l a, heap w !! l = Some a → ∃ sm, (l, sm) ∈ received w) ∧
  (∀ l sm, (l, sm) ∈ received w →
     ∃ a, heap w !! l = Some a ∧ summary_Rule sm = Rule a ∧
          summary_Events sm ≠ []).
Proof.
  intros (s & clk & Hs).
  assert (summaries_sound w) as [H1 H2].
  { refine (steps_invariant summaries_sound summaries_sound_frame
              summaries_sound_claim summaries_sound_Tidy _ _
              (init_good s clk) _ Hs).
    split; simpl.
    - intros l sm Hin. by apply elem_of_nil in Hin.
    - intros l a. by rewrite lookup_nil. }
  split.
  - intros l a Hl. by destruct (H2 l a Hl).
  - intros l sm Hin. destruct (lookup_lt_is_Some_2 (heap w) l) as [a Ha];
      [by eapply H1|].
    exists a. split; [done|]. by apply (H2 l a Ha).
Qed.


(** X8. When a rule claims an element: for a fingerprint not in the table
    the receiver is called once, with the claiming rule and that element
    alone; for an unsent instance it is called once, with the rule of the
    instance and all its events followed by the element; for a sent
    instance it is not called, the instance stays sent, and the element is
    appended all the same. *)
Theorem claim_notifies_with_all_events r e w :
  good w →
  ∃ w' l a',
    claim r e w = Ok tt w' ∧
    Aggregates (agg w') !! Fingerprint e = Some l ∧
    heap w' !! l = Some a' ∧
    (Aggregates (agg w) !! Fingerprint e = None →
     Rule a' = r ∧ Events a' = [e] ∧
     received w'
     = received w ++ [(l, {| summary_Rule := r; summary_Events := [e] |})]) ∧
    (∀ l0 a,
       Aggregates (agg w) !! Fingerprint e = Some l0 →
       heap w !! l0 = Some a →
       l = l0 ∧ Rule a' = Rule a ∧ Events a' = Events a ++ [e] ∧
       (state a = aggUnsent →
        received w'
        = received w ++ [(l, {| summary_Rule := Rule a;
                                summary_Events := Events a ++ [e] |})]) ∧
       (state a = aggSent →
        received w' = received w ∧ state a' = aggSent)).
Proof.
  intros Hg.
  destruct (claim_spec r e w Hg)
    as (w' & l & a' & Hrun & _ & _ & _ & _ & _ & Hfp & Hl & Hcase).
  pose proof (claim_received r e w w' l a' Hg Hrun Hfp Hl) as Hrec.
  exists w', l, a'. split; [done|]. split; [done|]. split; [done|].
  destruct (Aggregates (agg w) !! Fingerprint e) as [l0|].
  - split; [done|]. intros l1 a [= <-] Ha.
    destruct Hcase as (-> & _ & _ & b & Hb & Hp & Hev).
    assert (b = a) as -> by congruence.
    pose proof Hp as (_ & _ & HR & _). specialize (Hrec a Ha).
    split; [done|]. split; [done|]. split; [done|]. split.
    + intros Hs. rewrite Hs in Hrec. rewrite Hrec.
      unfold summary_of. by rewrite HR, Hev.
    + intros Hs. rewrite Hs, app_nil_r in Hrec. split; [done|].
      by destruct (in_place_sent _ _ _ _ _ Hp Hs).
  - destruct Hcase as (-> & _ & _ & HR & Hev). split; [|done].
    intros _. split; [done|]. split; [done|].
    rewrite Hrec. unfold summary_of. by rewrite HR, Hev.
Qed.

(** *** A batch, event by event *)

Lemma handled_no_match (rules : AggregationRules) (e : Event) :
  (∀ x, x ∈ rules → Filters_Handles (Filters_of (rule_at x)) e = false) →
  handled rules e = false.
Proof.
  unfold handled. induction rules as [|x rules IH]; intros Hno; [done|].
  simpl. rewrite (Hno x) by apply list_elem_of_here. simpl.
  apply IH. intros y Hy. apply Hno. by apply list_elem_of_further.
Qed.

Lemma handled_first_match (rules : AggregationRules) (e : Event)
    before r after :
  first_match rules e before r after → handled rules e = true.
Proof.
  intros (-> & _ & Hyes). unfold handled.
  rewrite existsb_app. simpl. rewrite Hyes. simpl.
  by rewrite orb_true_r.
Qed.

(** The element is held by the instance at [l]. *)
Lemma held_frame l (e : Event) :
  frame_closed (λ w : @World D S, ∃ a, heap w !! l = Some a ∧ e ∈ Events a).
Proof. intros w w' _ Hh _ _ _. by rewrite Hh. Qed.

Lemma held_claim l (e0 : Event) r e w w' :
  good w →
  (∃ a, heap w !! l = Some a ∧ e0 ∈ Events a) →
  claim r e w = Ok tt w' →
  ∃ a, heap w' !! l = Some a ∧ e0 ∈ Events a.
Proof.
  intros Hg (a & Ha & Hin) Hrun.
  destruct (claim_spec r e w Hg)
    as (w1 & l1 & a' & Hrun1 & _ & _ & _ & _ & _ & _ & Hl & Hcase).
  rewrite Hrun in Hrun1. injection Hrun1 as <-.
  destruct (Aggregates (agg w) !! Fingerprint e) as [l0|].
  - destruct Hcase as (-> & _ & _ & b & Hb & (_ & Hh & _) & Hev).
    rewrite Hh. destruct (decide (l = l0)) as [->|Hne].
    + exists a'. rewrite list_lookup_insert_eq by (by eapply lookup_lt_Some).
      split; [done|]. assert (b = a) as -> by congruence.
      rewrite Hev. apply elem_of_app. by left.
    + exists a. by rewrite list_lookup_insert_ne.
  - destruct Hcase as (_ & _ & Hh & _). exists a. rewrite Hh.
    split; [|done]. by apply lookup_app_l_Some.
Qed.

Lemma range_Rules_effect e rules w :
  good w →
  ∃ w' new calls,
    range_Rules e rules w = Ok tt w' ∧ good w' ∧
    Rules (agg w') = Rules (agg w) ∧
    ingested w' = ingested w ++ new ∧
    new.*2 = (if handled rules e then [e] else []) ∧
    received w' = received w ++ calls ∧
    (length calls ≤ length new)%nat ∧
    (length (heap w) ≤ length (heap w'))%nat ∧
    (length (heap w') ≤ length (heap w) + length new)%nat ∧
    (∀ l x, (l, x) ∈ new → ∃ a, heap w' !! l = Some a ∧ x ∈ Events a).
Proof.
  intros Hg. destruct (first_match_or_none rules e)
    as [Hno|(before & r & after & Hm)].
  - rewrite range_Rules_no_match, handled_no_match by done.
    destruct (checked_all_frame rules e w) as (Ha & Hh & _ & Hr & Hi).
    eexists _, [], []. split; [done|]. split; [by apply good_checked_all|].
    rewrite Ha, Hh, Hr, Hi, !app_nil_r. repeat split; try done; try lia.
    intros l x Hin. by apply elem_of_nil in Hin.
  - rewrite (range_Rules_match _ _ _ _ _ _ Hm), (handled_first_match _ _ _ _ _ Hm).
    set (w0 := checked_all (before ++ [r]) e w).
    destruct (checked_all_frame (before ++ [r]) e w)
      as (Ha0 & Hh0 & _ & Hr0 & Hi0). fold w0 in Ha0, Hh0, Hr0, Hi0.
    assert (good w0) as Hg0 by (by apply good_checked_all).
    destruct (claim_spec r e w0 Hg0)
      as (w' & l & a' & Hrun & Hg' & _ & HR & _ & Hin & Hfp & Hl & Hcase).
    pose proof (claim_received r e w0 w' l a' Hg0 Hrun Hfp Hl) as Hrec.
    assert (∃ calls, received w' = received w0 ++ calls ∧
                     (length calls ≤ 1)%nat) as (calls & Hrec' & Hlen).
    { destruct (Aggregates (agg w0) !! Fingerprint e) as [l0|].
      - destruct Hcase as (-> & _ & _ & a & Ha & _).
        specialize (Hrec _ Ha). destruct (state a); eexists; split; try done;
          simpl; lia.
      - eexists. split; [done|]. simpl. lia. }
    assert (length (heap w0) ≤ length (heap w') ≤ length (heap w0) + 1)%nat
      as Hheap.
    { destruct (Aggregates (agg w0) !! Fingerprint e) as [l0|].
      - destruct Hcase as (_ & _ & -> & _). lia.
      - destruct Hcase as (_ & _ & -> & _). rewrite length_app. simpl. lia. }
    assert (e ∈ Events a') as He.
    { destruct (Aggregates (agg w0) !! Fingerprint e) as [l0|].
      - destruct Hcase as (_ & _ & _ & a & _ & _ & ->).
        apply elem_of_app. right. apply list_elem_of_here.
      - destruct Hcase as (_ & _ & _ & _ & ->). apply list_elem_of_here. }
    exists w', [(l, e)], calls. split; [done|]. split; [done|].
    split; [by rewrite HR, Ha0|]. split; [by rewrite Hin, Hi0|].
    split; [done|]. split; [by rewrite Hrec', Hr0|]. simpl.
    rewrite <- Hh0. split; [lia|]. split; [lia|]. split; [lia|].
    intros l' x [= -> ->]%list_elem_of_singleton. eauto.
Qed.

Lemma range_Events_effect es w :
  good w →
  ∃ w' new calls,
    range_Events es w = Ok tt w' ∧ good w' ∧
    Rules (agg w') = Rules (agg w) ∧
    ingested w' = ingested w ++ new ∧
    new.*2 = List.filter (handled (Rules (agg w))) es ∧
    received w' = received w ++ calls ∧
    (length calls ≤ length new)%nat ∧
    (length (heap w) ≤ length (heap w'))%nat ∧
    (length (heap w') ≤ length (heap w) + length new)%nat ∧
    (∀ l x, (l, x) ∈ new → ∃ a, heap w' !! l = Some a ∧ x ∈ Events a).
Proof.
  revert w. induction es as [|e es IH]; intros w Hg.
  - exists w, [], []. rewrite !app_nil_r. split; [done|]. split; [done|].
    repeat split; try done; try lia.
    intros l x Hin. by apply elem_of_nil in Hin.
  - simpl. unfold bind, get_agg.
    destruct (range_Rules_effect e (Rules (agg w)) w Hg)
      as (w1 & n1 & c1 & -> & Hg1 & HR1 & Hi1 & Hn1 & Hr1 & Hl1 & Hh1 & Hh1' & Hheld1).
    destruct (IH w1 Hg1)
      as (w2 & n2 & c2 & Hrun2 & Hg2 & HR2 & Hi2 & Hn2 & Hr2 & Hl2 & Hh2 & Hh2' & Hheld2).
    rewrite Hrun2. exists w2, (n1 ++ n2), (c1 ++ c2).
    split; [done|]. split; [done|]. split; [congruence|].
    split; [by rewrite Hi2, Hi1, app_assoc|]. split.
    { rewrite fmap_app, Hn1, Hn2, HR1.
      by destruct (handled (Rules (agg w)) e). }
    split; [by rewrite Hr2, Hr1, app_assoc|].
    rewrite !length_app. split; [lia|]. split; [lia|]. split; [lia|].
    intros l x [Hin|Hin]%elem_of_app; [|by apply Hheld2].
    refine (range_Events_invariant _ (held_frame l x) (held_claim l x)
              es w1 w2 Hg1 _ Hrun2).
    by apply Hheld1.
Qed.

(** X6. With a non-empty rule list, the events that [aggregate] appends
    while it handles a batch are exactly the events of the batch that some
    rule handles, in batch order and once each; when the batch is done
    each of them is held by the instance that its fingerprint maps to. *)
Theorem batch_appends_the_handled_events rq w :
  good w →
  Rules (agg w) ≠ [] →
  ∃ w' new,
    aggregate (Some rq) w = Ok {| Err := None |} w' ∧
    ingested w' = ingested w ++ new ∧
    new.*2 = List.filter (handled (Rules (agg w))) (req_Events rq) ∧
    (∀ l e, (l, e) ∈ new →
       Aggregates (agg w') !! Fingerprint e = Some l ∧
       ∃ a, heap w' !! l = Some a ∧ e ∈ Events a).
Proof.
  intros Hg Hr. unfold aggregate, bind, get_agg.
  rewrite length_zero_nil. destruct (Rules (agg w)) as [|x rs] eqn:HR; [done|].
  simpl. set (w0 := with_oplog _ w).
  destruct (range_Events_effect (req_Events rq) w0)
    as (w' & new & calls & -> & Hg' & _ & Hi & Hn & _ & _ & _ & _ & Hheld).
  { by apply (good_same w). }
  exists w', new. split; [done|]. split; [done|].
  split; [by rewrite Hn; subst w0; simpl; rewrite HR|].
  intros l e Hin. split; [|by apply Hheld].
  apply (good_routed w' Hg'). rewrite Hi. apply elem_of_app. by right.
Qed.

(** X7. Handling a batch calls the receiver at most once for each event
    of the batch that some rule handles, and allocates at most that many
    instances and table entries; no instance is removed. *)
Theorem batch_is_bounded rq w :
  good w →
  ∃ resp w',
    aggregate (Some rq) w = Ok resp w' ∧
    let n := length (List.filter (handled (Rules (agg w))) (req_Events rq)) in
    (n ≤ length (req_Events rq))%nat ∧
    (length (received w') ≤ length (received w) + n)%nat ∧
    (length (heap w) ≤ length (heap w'))%nat ∧
    (length (heap w') ≤ length (heap w) + n)%nat ∧
    (size (Aggregates (agg w')) ≤ size (Aggregates (agg w)) + n)%nat.
Proof.
  intros Hg. simpl.
  assert (length (List.filter (handled (Rules (agg w))) (req_Events rq))
          ≤ length (req_Events rq))%nat as Hle by apply List.filter_length_le.
  destruct (Rules (agg w)) as [|x rs] eqn:HR.
  - rewrite aggregate_no_rules by done. eexists _, w. split; [done|].
    repeat split; try done; lia.
  - unfold aggregate, bind, get_agg. rewrite HR. simpl.
    set (w0 := with_oplog _ w).
    destruct (range_Events_effect (req_Events rq) w0)
      as (w' & new & calls & -> & Hg' & _ & _ & Hn & Hrec & Hl & Hh & Hh' & _).
    { by apply (good_same w). }
    eexists _, w'. split; [done|].
    assert (length new
            = length (List.filter (handled (x :: rs)) (req_Events rq))) as Hnew.
    { rewrite <- (length_fmap snd new), Hn. subst w0; simpl. by rewrite HR. }
    rewrite <- Hnew. split; [lia|]. rewrite Hrec, length_app.
    rewrite (good_size w' Hg'), (good_size w Hg).
    subst w0; simpl in *. repeat split; lia.
Qed.


(** *** The entry points and the loop *)









(** *** The ticker turn *)

Lemma owned_frame :
  frame_closed (λ w : @World D S,
    ∀ l, (l < length (heap w))%nat → ∃ fp, Aggregates (agg w) !! fp = Some l).
Proof. intros w w' Ha Hh _ _ _. by rewrite Ha, Hh. Qed.

Lemma owned_claim r e w w' :
  good w →
  (∀ l, (l < length (heap w))%nat → ∃ fp, Aggregates (agg w) !! fp = Some l) →
  claim r e w = Ok tt w' →
  ∀ l, (l < length (heap w'))%nat → ∃ fp, Aggregates (agg w') !! fp = Some l.
Proof.
  intros Hg HP Hrun.
  destruct (claim_spec r e w Hg)
    as (w1 & l1 & a' & Hrun1 & _ & _ & _ & _ & _ & Hfp & _ & Hcase).
  rewrite Hrun in Hrun1. injection Hrun1 as <-.
  destruct (Aggregates (agg w) !! Fingerprint e) as [l0|] eqn:Hl0.
  - destruct Hcase as (_ & -> & -> & _). done.
  - destruct Hcase as (-> & -> & -> & _). intros l. rewrite length_app. simpl.
    intros Hl. destruct (decide (l = length (heap w))) as [->|Hne].
    + exists (Fingerprint e). by rewrite lookup_insert_eq.
    + destruct (HP l) as [fp Hfp']; [lia|]. exists fp.
      rewrite lookup_insert_ne; [done|]. congruence.
Qed.

Lemma owned_Tidy r w w' :
  good w →
  (∀ l, (l < length (heap w))%nat → ∃ fp, Aggregates (agg w) !! fp = Some l) →
  Tidy r w = Ok tt w' →
  ∀ l, (l < length (heap w'))%nat → ∃ fp, Aggregates (agg w') !! fp = Some l.
Proof.
  intros _ HP Hrun. destruct (heap w !! r) as [a|] eqn:Hr;
    [|by rewrite Tidy_invalid in Hrun].
  destruct (Tidy_frame r w a Hr) as (w1 & a1 & Hrun1 & Ha & Hh & _).
  rewrite Hrun in Hrun1. injection Hrun1 as <-.
  intros l. rewrite Ha, Hh, length_insert. apply HP.
Qed.

Lemma reachable_owned w l :
  reachable w → (l < length (heap w))%nat →
  ∃ fp, Aggregates (agg w) !! fp = Some l.
Proof.
  intros (s & clk & Hs). revert l.
  refine (steps_invariant _ owned_frame owned_claim owned_Tidy _ _
            (init_good s clk) _ Hs).
  simpl. intros l Hl. lia.
Qed.

Lemma selectable_visits_all w order l :
  reachable w → selectable w (CaseTick order) →
  (l < length (heap w))%nat → l ∈ order.*2.
Proof.
  intros Hreach Hsel Hl. destruct (reachable_owned w l Hreach Hl) as [fp Hfp].
  simpl in Hsel. apply list_elem_of_fmap. exists (fp, l). split; [done|].
  rewrite Hsel. by apply elem_of_map_to_list.
Qed.

(** X11. A ticker turn in a reachable world returns, calls the receiver
    for no instance, and leaves the rules, the table, the receiver and the
    number of instances as they are; every instance keeps its rule, its
    events are a subsequence of what they were, and its state does not go
    back. *)
Theorem sweep_is_silent order closed w :
  reachable w →
  selectable w (CaseTick order) →
  ∃ w',
    select_case (CaseTick order) closed w = Ok closed w' ∧
    agg w' = agg w ∧ sink w' = sink w ∧ received w' = received w ∧
    ingested w' = ingested w ∧
    length (heap w') = length (heap w) ∧
    ∀ l a, heap w !! l = Some a →
           ∃ a', heap w' !! l = Some a' ∧ Rule a' = Rule a ∧
                 Events a' `sublist_of` Events a ∧
                 state_le (state a) (state a').
Proof.
  intros Hreach Hsel. simpl. unfold bind.
  destruct (range_Aggregates_frame order w)
    as (w' & -> & Ha & Hs & Hr & Hi & Hlen & Hinst).
  { apply selectable_valid; [by apply reachable_good|done]. }
  exists w'. do 6 (split; [done|]). intros l a Hl.
  destruct (Hinst l a Hl) as (a' & ? & ? & ? & ? & _). eauto.
Qed.

Lemma kept_overdue t (evs : list Event) :
  (∀ e, e ∈ evs → CreatedAt e ≤ t) → kept t evs = [].
Proof.
  induction evs as [|e evs IH]; intros Hold; [done|]. simpl.
  unfold Before at 1. rewrite (proj2 (Z.ltb_ge t (CreatedAt e)))
    by (apply Hold, list_elem_of_here).
  apply IH. intros x Hx. by apply Hold, list_elem_of_further.
Qed.

Lemma range_Aggregates_overdue (order : list (Z * nat)) w :
  good w →
  (∀ c, c ∈ order → (c.2 < length (heap w))%nat) →
  (∀ l a e n, heap w !! l = Some a → e ∈ Events a → CreatedAt e ≤ clock w n) →
  ∃ w',
    range_Aggregates order w = Ok tt w' ∧
    ∀ l a', heap w' !! l = Some a' → l ∈ order.*2 →
            Events a' = [] ∧ state a' = aggSent.
Proof.
  revert w. induction order as [|[fp r] order IH]; intros w Hg Hv Hold.
  - exists w. split; [done|]. intros l a' _ Hin. by apply elem_of_nil in Hin.
  - simpl. unfold bind.
    destruct (lookup_lt_is_Some_2 (heap w) r) as [b Hb];
      [apply (Hv (fp, r)), list_elem_of_here|].
    destruct (Tidy_frame r w b Hb)
      as (w1 & b1 & Hrun & _ & Hh1 & _ & _ & _ & Hc1 & _ & Hcase).
    destruct (Tidy_sound r w Hg) as (w1' & Hrun' & Hg1 & _);
      [by eapply lookup_lt_Some|].
    assert (w1' = w1) as -> by congruence. rewrite Hrun.
    assert (Events b1 = [] ∧ state b1 = aggSent) as [He1 Hs1].
    { destruct Hcase as [(He & -> & _)|(_ & -> & _)].
      - split; [done|]. exact (good_sent w Hg r b Hb He).
      - simpl. rewrite kept_overdue; [done|]. intros e He.
        exact (Hold r b e _ Hb He). }
    assert (heap w1 !! r = Some b1) as Hb1.
    { rewrite Hh1. apply list_lookup_insert_eq. by eapply lookup_lt_Some. }
    assert (∀ c, c ∈ order → (c.2 < length (heap w1))%nat) as Hv1.
    { intros c Hc. rewrite Hh1, length_insert.
      by apply Hv, list_elem_of_further. }
    destruct (IH w1 Hg1 Hv1) as (w2 & Hrun2 & Hdone).
    { intros l a e n. rewrite Hc1, Hh1.
      destruct (decide (l = r)) as [->|Hne].
      - rewrite list_lookup_insert_eq by (by eapply lookup_lt_Some).
        intros [= <-]. rewrite He1. intros Hin. by apply elem_of_nil in Hin.
      - rewrite list_lookup_insert_ne by done. apply (Hold l). }
    exists w2. split; [done|]. intros l a' Hl Hin. simpl in Hin.
    destruct (decide (l ∈ order.*2)) as [Hr|Hr]; [by apply (Hdone l)|].
    apply elem_of_cons in Hin as [->|Hin]; [|done].
    destruct (range_Aggregates_frame order w1 Hv1)
      as (w2' & Hrun2' & _ & _ & _ & _ & _ & Hinst).
    assert (w2' = w2) as -> by congruence.
    destruct (Hinst r b1 Hb1) as (a'' & Hl'' & _ & Hsub & Hst & _).
    assert (a'' = a') as -> by congruence.
    rewrite He1 in Hsub. rewrite Hs1 in Hst.
    split; [by apply sublist_nil_r|by apply state_le_sent].
Qed.

(** X13. A ticker turn at which no stored event is created after the
    clock's readings empties every instance and leaves every instance
    sent, without a call to the receiver. *)
Theorem sweep_of_overdue_events_sends_all order closed w :
  reachable w →
  selectable w (CaseTick order) →
  (∀ l a e n, heap w !! l = Some a → e ∈ Events a → CreatedAt e ≤ clock w n) →
  ∃ w',
    select_case (CaseTick order) closed w = Ok closed w' ∧
    received w' = received w ∧
    ∀ l a', heap w' !! l = Some a' → Events a' = [] ∧ state a' = aggSent.
Proof.
  intros Hreach Hsel Hold. pose proof (reachable_good w Hreach) as Hg.
  pose proof (selectable_valid w order Hg Hsel) as Hv.
  simpl. unfold bind.
  destruct (range_Aggregates_overdue order w Hg Hv Hold) as (w' & Hrun & Hdone).
  destruct (range_Aggregates_frame order w Hv)
    as (w1 & Hrun1 & _ & _ & Hrec & _ & Hlen & _).
  assert (w1 = w') as -> by congruence. rewrite Hrun.
  exists w'. split; [done|]. split; [done|]. intros l a' Hl.
  apply (Hdone l); [done|]. apply (selectable_visits_all w order l Hreach Hsel).
  rewrite <- Hlen. by eapply lookup_lt_Some.
Qed.

End more_properties.

(** ** The further properties at work on the small instance *)


Lemma opened_reachable :
  @reachable Demo.decls _ Demo.scripted Demo.rules (Demo.opened []).
Proof.
  exists [], Demo.clk. apply (Dispatch_steps Demo.opening _ (Selecting 0)).
  - vm_compute. done.
  - vm_compute. reflexivity.
Qed.

Lemma retrying_reachable :
  @reachable Demo.decls _ Demo.scripted Demo.rules
    (Demo.opened [Some true; Some true]).
Proof.
  exists [Some true; Some true], Demo.clk.
  apply (Dispatch_steps Demo.opening _ (Selecting 0)).
  - vm_compute. done.
  - vm_compute. reflexivity.
Qed.

(** The same event appended twice is held twice. *)
Lemma Ingest_appends_in_order_witness :
  heap (Demo.holding [] [Demo.e1] aggSent) !! 0%nat
  = Some (Demo.instance 1 [Demo.e1] aggSent) ∧
  ∃ w',
    @call_methods Demo.decls _ Demo.scripted 0
      (Demo.ingests [Demo.e4; Demo.e4]) (Demo.holding [] [Demo.e1] aggSent)
    = Ok tt w' ∧
    heap w' = [Demo.instance 1 [Demo.e1; Demo.e4; Demo.e4] aggSent] ∧
    received w' = [].
Proof.
  split; [reflexivity|].
  destruct (@Ingest_appends_in_order Demo.decls _ Demo.scripted 0
              (Demo.holding [] [Demo.e1] aggSent)
              (Demo.instance 1 [Demo.e1] aggSent) [Demo.e4; Demo.e4] eq_refl)
    as (w' & Hrun & Hh & _ & _ & Hrec & _).
  exists w'. split; [exact Hrun|]. split; [exact Hh|exact Hrec].
Defined.

(** Readings 100 and 101: [e1] (created at 50) goes, [e2] (500) stays. *)
Lemma Tidy_twice_witness :
  heap (Demo.holding [] [Demo.e1; Demo.e2] aggUnsent) !! 0%nat
  = Some (Demo.instance 1 [Demo.e1; Demo.e2] aggUnsent) ∧
  Demo.clk 0 ≤ Demo.clk 1 ∧
  ∃ w' a',
    @call_methods Demo.decls _ Demo.scripted 0 Demo.sweeps
      (Demo.holding [] [Demo.e1; Demo.e2] aggUnsent)
    = Ok tt w' ∧
    heap w' = [a'] ∧ Events a' = [Demo.e2] ∧ state a' = aggUnsent.
Proof.
  split; [reflexivity|]. split; [discriminate|].
  destruct (@Tidy_twice Demo.decls _ Demo.scripted 0
              (Demo.holding [] [Demo.e1; Demo.e2] aggUnsent)
              (Demo.instance 1 [Demo.e1; Demo.e2] aggUnsent) eq_refl)
    as (w' & a' & Hrun & Hh & Hev & _ & Hst & _); [discriminate|].
  exists w', a'. split; [exact Hrun|]. split; [exact Hh|].
  split; [exact Hev|]. apply Hst. rewrite Hev. discriminate.
Defined.

(** Two instances, visited in either order. *)
Lemma sweep_order_is_immaterial_witness :
  steady Demo.standing ∧
  [(7, 0%nat); (9, 1%nat)] ≡ₚ [(9, 1%nat); (7, 0%nat)] ∧
  @range_Aggregates Demo.decls _ [(7, 0%nat); (9, 1%nat)] Demo.standing
  = @range_Aggregates Demo.decls _ [(9, 1%nat); (7, 0%nat)] Demo.standing.
Proof.
  assert (steady Demo.standing) as Hst by (intros n; reflexivity).
  assert ([(7, 0%nat); (9, 1%nat)] ≡ₚ [(9, 1%nat); (7, 0%nat)]) as Hp
    by apply perm_swap.
  split; [exact Hst|]. split; [exact Hp|].
  exact (@sweep_order_is_immaterial Demo.decls _ _ _ Demo.standing Hst Hp).
Defined.



(** Of the batch [e3; e4; e2] the rules handle [e4] and [e2]. *)
Lemma batch_appends_the_handled_events_witness :
  good (Demo.opened []) ∧
  Rules (agg (Demo.opened [])) ≠ [] ∧
  ∃ w' new,
    @aggregate Demo.decls _ Demo.scripted Demo.rules
      (Some (Demo.batch [Demo.e3; Demo.e4; Demo.e2])) (Demo.opened [])
    = Ok {| Err := None |} w' ∧
    ingested w' = ingested (Demo.opened []) ++ new ∧
    new.*2 = [Demo.e4; Demo.e2].
Proof.
  assert (Rules (agg (Demo.opened [])) ≠ []) as HR
    by (vm_compute; discriminate).
  split; [exact (reachable_good _ opened_reachable)|]. split; [exact HR|].
  destruct (@batch_appends_the_handled_events Demo.decls _ Demo.scripted
              Demo.rules (Demo.batch [Demo.e3; Demo.e4; Demo.e2])
              (Demo.opened []) (reachable_good _ opened_reachable) HR)
    as (w' & new & Hrun & Hin & Hnew & _).
  exists w', new. split; [exact Hrun|]. split; [exact Hin|].
  rewrite Hnew. vm_compute. reflexivity.
Defined.

(** The same batch: at most two calls, at most two new instances. *)
Lemma batch_is_bounded_witness :
  good (Demo.opened []) ∧
  ∃ resp w',
    @aggregate Demo.decls _ Demo.scripted Demo.rules
      (Some (Demo.batch [Demo.e3; Demo.e4; Demo.e2])) (Demo.opened [])
    = Ok resp w' ∧
    (length (received w') ≤ length (received (Demo.opened [])) + 2)%nat ∧
    (length (heap w') ≤ length (heap (Demo.opened [])) + 2)%nat.
Proof.
  split; [exact (reachable_good _ opened_reachable)|].
  destruct (@batch_is_bounded Demo.decls _ Demo.scripted Demo.rules
              (Demo.batch [Demo.e3; Demo.e4; Demo.e2])
              (Demo.opened []) (reachable_good _ opened_reachable))
    as (resp & w' & Hrun & _ & Hrec & _ & Hheap & _).
  exists resp, w'. split; [exact Hrun|]. split; [exact Hrec|exact Hheap].
Defined.

(** The first call failed with a retryable error; the next element of the
    fingerprint is sent along with the first. *)
Lemma claim_notifies_with_all_events_witness :
  good (Demo.opened [Some true; Some true]) ∧
  ∃ w',
    @claim Demo.decls _ Demo.scripted 1 Demo.e4
      (Demo.opened [Some true; Some true])
    = Ok tt w' ∧
    received w'
    = received (Demo.opened [Some true; Some true])
      ++ [(0%nat, Demo.summary 2 [Demo.e1; Demo.e4])].
Proof.
  split; [exact (reachable_good _ retrying_reachable)|].
  destruct (@claim_notifies_with_all_events Demo.decls _ Demo.scripted 1
              Demo.e4 (Demo.opened [Some true; Some true])
              (reachable_good _ retrying_reachable))
    as (w' & l & a' & Hrun & _ & _ & _ & Hold).
  exists w'. split; [exact Hrun|].
  destruct (Hold 0%nat (Demo.instance 2 [Demo.e1] aggUnsent))
    as (-> & _ & _ & Hunsent & _).
  - vm_compute. reflexivity.
  - vm_compute. reflexivity.
  - exact (Hunsent eq_refl).
Defined.

(** Both events of the instance have the fingerprint 7 of its entry. *)
Lemma instance_holds_its_own_events_witness :
  @reachable Demo.decls _ Demo.scripted Demo.rules Demo.arrived ∧
  heap Demo.arrived !! 0%nat
  = Some (Demo.instance 2 [Demo.e1; Demo.e2] aggSent) ∧
  Aggregates (agg Demo.arrived) !! Demo.ev_fp Demo.e2 = Some 0%nat.
Proof.
  assert (heap Demo.arrived !! 0%nat
          = Some (Demo.instance 2 [Demo.e1; Demo.e2] aggSent)) as Hl
    by (vm_compute; reflexivity).
  split; [exact arrivals_reachable|]. split; [exact Hl|].
  destruct (@instance_holds_its_own_events Demo.decls _ Demo.scripted
              Demo.rules Demo.arrived 0%nat _ arrivals_reachable Hl)
    as (_ & Hfp & _).
  apply (Hfp Demo.e2). simpl. apply list_elem_of_further, list_elem_of_here.
Defined.

(** The instance of the arrivals was offered to the receiver. *)
Lemma every_instance_was_offered_witness :
  @reachable Demo.decls _ Demo.scripted Demo.rules Demo.arrived ∧
  ∃ sm, (0%nat, sm) ∈ received Demo.arrived.
Proof.
  split; [exact arrivals_reachable|].
  destruct (@every_instance_was_offered Demo.decls _ Demo.scripted Demo.rules
              Demo.arrived arrivals_reachable) as [Hoffered _].
  apply (Hoffered 0%nat (Demo.instance 2 [Demo.e1; Demo.e2] aggSent)).
  vm_compute. reflexivity.
Defined.

(** A ticker turn after the first arrival. *)
Lemma sweep_is_silent_witness :
  @reachable Demo.decls _ Demo.scripted Demo.rules (Demo.opened []) ∧
  selectable (Demo.opened []) (CaseTick [(7, 0%nat)]) ∧
  ∃ w',
    @select_case Demo.decls _ Demo.scripted Demo.rules
      (CaseTick [(7, 0%nat)]) 0 (Demo.opened [])
    = Ok 0%nat w' ∧
    received w' = received (Demo.opened []).
Proof.
  assert (selectable (Demo.opened []) (@CaseTick Demo.decls [(7, 0%nat)]))
    as Hsel by (vm_compute; done).
  split; [exact opened_reachable|]. split; [exact Hsel|].
  destruct (@sweep_is_silent Demo.decls _ Demo.scripted Demo.rules _ 0%nat
              (Demo.opened []) opened_reachable Hsel)
    as (w' & Hrun & _ & _ & Hrec & _).
  exists w'. split; [exact Hrun|exact Hrec].
Defined.


(** [e1] was created at 50 and the clock reads 100 or more: the ticker
    turn leaves nothing. *)
Lemma sweep_of_overdue_events_sends_all_witness :
  @reachable Demo.decls _ Demo.scripted Demo.rules
    (Demo.opened [Some true]) ∧
  selectable (Demo.opened [Some true]) (CaseTick [(7, 0%nat)]) ∧
  (∀ l a e n,
     heap (Demo.opened [Some true]) !! l = Some a → e ∈ Events a →
     Demo.ev_created e ≤ clock (Demo.opened [Some true]) n) ∧
  ∃ w',
    @select_case Demo.decls _ Demo.scripted Demo.rules
      (CaseTick [(7, 0%nat)]) 0 (Demo.opened [Some true])
    = Ok 0%nat w' ∧
    ∀ l a', heap w' !! l = Some a' → Events a' = [] ∧ state a' = aggSent.
Proof.
  assert (@reachable Demo.decls _ Demo.scripted Demo.rules
            (Demo.opened [Some true])) as Hreach.
  { exists [Some true], Demo.clk.
    apply (Dispatch_steps Demo.opening _ (Selecting 0)).
    - vm_compute. done.
    - vm_compute. reflexivity. }
  assert (selectable (Demo.opened [Some true])
            (@CaseTick Demo.decls [(7, 0%nat)]))
    as Hsel by (vm_compute; done).
  assert (∀ l a e n,
            heap (Demo.opened [Some true]) !! l = Some a → e ∈ Events a →
            Demo.ev_created e ≤ clock (Demo.opened [Some true]) n) as Hold.
  { assert (heap (Demo.opened [Some true])
            = [Demo.instance 2 [Demo.e1] aggUnsent]) as ->
      by (vm_compute; reflexivity).
    assert (clock (Demo.opened [Some true]) = Demo.clk) as ->
      by (vm_compute; reflexivity).
    intros [|l] a e n Hl He; [|done]. injection Hl as <-.
    apply list_elem_of_singleton in He as ->.
    unfold Demo.clk. simpl. lia. }
  split; [exact Hreach|]. split; [exact Hsel|]. split; [exact Hold|].
  destruct (@sweep_of_overdue_events_sends_all Demo.decls _ Demo.scripted
              Demo.rules _ 0%nat (Demo.opened [Some true]) Hreach Hsel Hold)
    as (w' & Hrun & _ & Hall).
  exists w'. split; [exact Hrun|exact Hall].
Defined.
